(** * URL Details Scraper: extraction rules and the result cache

    A shallow embedding of the server half of [src/public/script.js]
    (the Express application that follows the browser code in that file):
    [cleanText], [extractMetaTags], [extractImages], [extractLinks],
    [extractHeadings], [extractParagraphs], [scrapeWebpage], the routes and
    the [scrapedResults] map; and of what the page of the second
    [URLScraper] class does with the replies.

    Conventions.
    - A JavaScript string is a [string]; every [ascii] stands for one UTF-16
      code unit in the range 0..255, so [String.length] is [.length].
    - A value that may be [undefined] is an [option]; a call that may throw
      returns [option], with [None] for the exception.
    - The [URL] constructor and [axios] belong to the platform: they are
      parameters of the sections that use them.  [SimpleURL] below
      implements the constructor on plain [scheme://host/path] URLs so that
      the extraction rules can be run on examples.
    - The handler of [/scrape] is [async]: it is modelled in the two parts
      that its [await] separates, and the server as a machine that takes one
      event after the other, so that requests may overlap. *)

From stdpp Require Import base option list strings gmap.
From Stdlib Require Import Ascii Lia.

Local Open Scope nat_scope.
Local Set Warnings "-register-all".

(** ** JavaScript strings *)

Module JS.

(** [WhiteSpace] and [LineTerminator] code units below 256: TAB, LF, VT, FF,
    CR, SP and NBSP.  This is both the class [\s] of a regular expression
    and the set [String.prototype.trim] strips. *)
Definition isWhiteSpace (c : ascii) : bool :=
  let n := nat_of_ascii c in
  ((9 <=? n) && (n <=? 13)) || (n =? 32) || (n =? 160).

(** [s.trimStart()] *)
Fixpoint trimStart (s : string) : string :=
  match s with
  | EmptyString => EmptyString
  | String c s' => if isWhiteSpace c then trimStart s' else s
  end.

(** [s.trimEnd()] *)
Fixpoint trimEnd (s : string) : string :=
  match s with
  | EmptyString => EmptyString
  | String c s' =>
      match trimEnd s' with
      | EmptyString => if isWhiteSpace c then EmptyString else String c EmptyString
      | r => String c r
      end
  end.

(** [s.trim()] *)
Definition trim (s : string) : string := trimEnd (trimStart s).

(** [s.replace(/\s+/g, ' ')]: every maximal run of white space becomes one
    space.  [inRun] tells that the previous code unit was white space. *)
Fixpoint collapseFrom (inRun : bool) (s : string) : string :=
  match s with
  | EmptyString => EmptyString
  | String c s' =>
      if isWhiteSpace c
      then if inRun then collapseFrom true s'
           else String " " (collapseFrom true s')
      else String c (collapseFrom false s')
  end.

Definition collapseWhiteSpace (s : string) : string := collapseFrom false s.

(** [s.startsWith(p)] *)
Definition startsWith (p s : string) : bool := String.prefix p s.

(** [s.includes(p)] *)
Fixpoint includes (p s : string) : bool :=
  String.prefix p s ||
  match s with
  | EmptyString => false
  | String _ s' => includes p s'
  end.

(** [s.toLowerCase()] on code units below 256: A-Z and the Latin-1 capitals
    (0xC0-0xDE without the multiplication sign 0xD7) move up by 32. *)
Definition toLowerCaseUnit (c : ascii) : ascii :=
  let n := nat_of_ascii c in
  if ((65 <=? n) && (n <=? 90)) ||
     ((192 <=? n) && (n <=? 222) && negb (n =? 215))
  then ascii_of_nat (n + 32) else c.

Fixpoint toLowerCase (s : string) : string :=
  match s with
  | EmptyString => EmptyString
  | String c s' => String (toLowerCaseUnit c) (toLowerCase s')
  end.

(** [s.substring(0, n)] *)
Definition substring0 (n : nat) (s : string) : string := String.substring 0 n s.

(** [a || b] on values that are a string or [undefined]: [a] when it is
    truthy (a non-empty string), else [b]. *)
Definition or (a b : option string) : option string :=
  match a with
  | Some (String _ _) => a
  | _ => b
  end.

(** [a || b] where [b] is a string. *)
Definition orString (a : option string) (b : string) : string :=
  match a with
  | Some (String c s) => String c s
  | _ => b
  end.

(** Truthiness of a string. *)
Definition truthy (s : string) : bool :=
  match s with EmptyString => false | String _ _ => true end.

(** The first code unit is white space. *)
Definition startsWithWhiteSpace (s : string) : bool :=
  match s with
  | EmptyString => false
  | String c _ => isWhiteSpace c
  end.

(** The words of a string, its maximal runs of code units that are not white
    space, and a list of words joined by single spaces. *)
Fixpoint words (s : string) : list string :=
  match s with
  | EmptyString => []
  | String c s' =>
      if isWhiteSpace c then words s'
      else match words s' with
           | [] => [String c EmptyString]
           | w :: ws =>
               if startsWithWhiteSpace s' then String c EmptyString :: w :: ws
               else String c w :: ws
           end
  end.

Fixpoint unwords (ws : list string) : string :=
  match ws with
  | [] => EmptyString
  | w :: rest =>
      match rest with
      | [] => w
      | _ :: _ => w +:+ String " " (unwords rest)
      end
  end.

(** [p] occurs in [s], letter for letter. *)
Definition contains (p s : string) : Prop :=
  ∃ pre post, s = pre +:+ p +:+ post.

(** The lower-case word [p] occurs in [s] in some letter case. *)
Definition containsAnyCase (p s : string) : Prop :=
  ∃ pre w post, s = pre +:+ w +:+ post ∧ toLowerCase w = p.

End JS.

(** ** [cleanText] *)

(** [text ? text.trim().replace(/\s+/g, ' ') : ''] *)
Definition cleanText (text : string) : string :=
  if JS.truthy text then JS.collapseWhiteSpace (JS.trim text) else "".

(** Some code unit of the string is white space. *)
Fixpoint hasWhiteSpace (s : string) : bool :=
  match s with
  | EmptyString => false
  | String c s' => JS.isWhiteSpace c || hasWhiteSpace s'
  end.

(** A word: not empty, no white space in it. *)
Definition isWord (w : string) : Prop := w ≠ "" ∧ hasWhiteSpace w = false.

(** ** The parsed document (cheerio) *)

(** The tree [cheerio.load] builds: text nodes and elements with their
    attributes (as parsed: lower-case names, the first of a repeated
    attribute) and children.  Comments carry no text and are left out. *)
Inductive node : Type :=
| Text (data : string)
| Element (name : string) (attribs : list (string * string))
          (children : list node).

Definition document := list node.

(** The selectors the server uses. *)
Inductive selector : Type :=
| Tag (name : string)                    (* [$('img')] *)
| TagWithAttr (name attr : string)       (* [$('a[href]')] *)
| TagAttrIs (name attr value : string)   (* [$('meta[name="description"]')] *)
| AnyTag (names : list string).          (* [$('h1, h2, h3, h4, h5, h6')] *)

Fixpoint lookupAttr (attr : string) (attribs : list (string * string))
  : option string :=
  match attribs with
  | [] => None
  | (k, v) :: rest => if String.eqb attr k then Some v else lookupAttr attr rest
  end.

Definition matches (sel : selector) (name : string)
    (attribs : list (string * string)) : bool :=
  match sel with
  | Tag t => String.eqb t name
  | TagWithAttr t a =>
      String.eqb t name && bool_decide (is_Some (lookupAttr a attribs))
  | TagAttrIs t a v =>
      String.eqb t name && bool_decide (lookupAttr a attribs = Some v)
  | AnyTag ts => existsb (fun t => String.eqb t name) ts
  end.

(** The elements below (and including) a node that match, in document
    order. *)
Fixpoint findAll (sel : selector) (n : node) : list node :=
  match n with
  | Text _ => []
  | Element name attribs children =>
      (if matches sel name attribs then [n] else []) ++
      (fix go (l : list node) : list node :=
         match l with
         | [] => []
         | c :: l' => findAll sel c ++ go l'
         end) children
  end.

(** [$(selector)]: the selection, in document order. *)
Definition select (sel : selector) (doc : document) : list node :=
  flat_map (findAll sel) doc.

(** [$(el).attr(name)] *)
Definition attr (name : string) (el : node) : option string :=
  match el with
  | Text _ => None
  | Element _ attribs _ => lookupAttr name attribs
  end.

(** [$(selection).attr(name)]: the attribute of the first element. *)
Definition attrOfFirst (name : string) (sel : list node) : option string :=
  match sel with
  | [] => None
  | el :: _ => attr name el
  end.

(** [el.tagName] *)
Definition tagName (el : node) : string :=
  match el with
  | Text _ => ""
  | Element name _ _ => name
  end.

(** [$(el).text()]: the text of the node and of its descendants. *)
Fixpoint text (n : node) : string :=
  match n with
  | Text data => data
  | Element _ _ children =>
      (fix go (l : list node) : string :=
         match l with
         | [] => ""
         | c :: l' => text c +:+ go l'
         end) children
  end.

(** [$(selection).text()]: the combined text of every element of the
    selection. *)
Fixpoint textOf (sel : list node) : string :=
  match sel with
  | [] => ""
  | el :: rest => text el +:+ textOf rest
  end.

(** [$(selection).each(callback)] for a callback that updates the variables
    it closes over ([S]). *)
Definition each {S : Type} (callback : S -> node -> S)
    (sel : list node) (st : S) : S :=
  foldl callback st sel.

(** The same for a callback that may throw ([None]); one that returns early
    leaves the state as it is. *)
Fixpoint eachOrThrow {S : Type} (callback : S -> node -> option S)
    (sel : list node) (st : S) : option S :=
  match sel with
  | [] => Some st
  | el :: rest =>
      match callback st el with
      | None => None
      | Some st' => eachOrThrow callback rest st'
      end
  end.

(** ** The records of the result *)

Record URL := {
  url_protocol : string;   (* [urlObj.protocol], with its colon *)
  url_host : string;       (* [urlObj.host] *)
  url_hostname : string;   (* [urlObj.hostname] *)
  url_origin : string;     (* [urlObj.origin] *)
  url_href : string        (* [urlObj.href] *)
}.

Record image := { img_src : string; img_alt : string }.
Record link := { link_href : string; link_text : string }.
Record heading := { heading_level : string; heading_text : string }.

(** What the URL handling of one image or anchor comes to. *)
Inductive resolution : Type :=
| Throws                   (* an exception leaves the callback *)
| Skips                    (* [return;] from the [catch] *)
| Resolved (s : string).

(** ** The extraction rules *)

Section Extractor.

(** [new URL(s)] and [new URL(s, base)]; [None] when the constructor throws
    a [TypeError]. *)
Variable new_URL : string -> option URL.
Variable new_URL_base : string -> string -> option URL.

(** *** Images *)

(** Lines 974-983: a source that begins with a slash is glued to the
    protocol and host of the base, one that does not begin with [http] goes
    through the [URL] constructor, anything else is kept as written. *)
Definition resolveImageSrc (baseUrl src : string) : resolution :=
  if JS.startsWith "/" src then
    match new_URL baseUrl with
    | None => Throws
    | Some urlObj =>
        Resolved (url_protocol urlObj +:+ "//" +:+ url_host urlObj +:+ src)
    end
  else if negb (JS.startsWith "http" src) then
    match new_URL_base src baseUrl with
    | None => Skips
    | Some u => Resolved (url_href u)
    end
  else Resolved src.

(** Lines 986-991: the test that lets an image through. *)
Definition imageWanted (src alt : string) : bool :=
  negb (JS.includes "icon" src) &&
  negb (JS.includes "logo" src) &&
  negb (JS.includes "favicon" src) &&
  negb (JS.includes "pixel" src) &&
  negb (JS.includes "icon" (JS.toLowerCase alt)) &&
  negb (JS.includes "logo" (JS.toLowerCase alt)).

(** [src || data-src || data-lazy] of an image element. *)
Definition imageSrcAttr (img : node) : option string :=
  JS.or (JS.or (attr "src" img) (attr "data-src" img)) (attr "data-lazy" img).

(** [$(img).attr('alt') || ''] *)
Definition imageAltAttr (img : node) : string :=
  JS.orString (attr "alt" img) "".

(** The callback of [$('img').each]; the state is [images] and
    [seenImages]. *)
Definition imagesCallback (baseUrl : string)
    (st : list image * gset string) (img : node)
  : option (list image * gset string) :=
  let '(images, seenImages) := st in
  let alt := imageAltAttr img in
  match imageSrcAttr img with
  | Some src =>
      if JS.truthy src && negb (bool_decide (src ∈ seenImages)) then
        match resolveImageSrc baseUrl src with
        | Throws => None
        | Skips => Some st
        | Resolved src =>
            if imageWanted src alt
            then Some (images ++ [{| img_src := src; img_alt := cleanText alt |}],
                       seenImages ∪ {[ src ]})
            else Some st
        end
      else Some st
  | None => Some st
  end.

(** The loop of [extractImages] over a selection, before the cap. *)
Definition imagesLoop (baseUrl : string) (sel : list node)
  : option (list image * gset string) :=
  eachOrThrow (imagesCallback baseUrl) sel ([], ∅).

Definition extractImages (doc : document) (baseUrl : string)
  : option (list image) :=
  st ← imagesLoop baseUrl (select (Tag "img") doc);
  Some (take 10 st.1).

(** The entry that the callback pushes for an image element. *)
Definition imageFrom (baseUrl : string) (img : node) (entry : image) : Prop :=
  ∃ src, imageSrcAttr img = Some src ∧ src ≠ "" ∧
         resolveImageSrc baseUrl src = Resolved (img_src entry) ∧
         imageWanted (img_src entry) (imageAltAttr img) = true ∧
         img_alt entry = cleanText (imageAltAttr img).

(** *** Links *)

(** Lines 1012-1021. *)
Definition resolveLinkHref (baseUrl href : string) : resolution :=
  if JS.startsWith "/" href then
    match new_URL baseUrl with
    | None => Throws
    | Some urlObj =>
        Resolved (url_protocol urlObj +:+ "//" +:+ url_host urlObj +:+ href)
    end
  else if negb (JS.startsWith "http" href) &&
          negb (JS.startsWith "mailto" href) &&
          negb (JS.startsWith "tel" href) then
    match new_URL_base href baseUrl with
    | None => Skips
    | Some u => Resolved (url_href u)
    end
  else Resolved href.

(** Line 1023: [text.length > 3 && text.length < 100]. *)
Definition linkTextWanted (text : string) : bool :=
  (3 <? String.length text) && (String.length text <? 100).

(** The callback of [$('a[href]').each]; the state is [links] and
    [seenLinks]. *)
Definition linksCallback (baseUrl : string)
    (st : list link * gset string) (a : node)
  : option (list link * gset string) :=
  let '(links, seenLinks) := st in
  let text := cleanText (text a) in
  match attr "href" a with
  | Some href =>
      if JS.truthy href && JS.truthy text &&
         negb (bool_decide (href ∈ seenLinks)) then
        match resolveLinkHref baseUrl href with
        | Throws => None
        | Skips => Some st
        | Resolved href =>
            if linkTextWanted text
            then Some (links ++ [{| link_href := href; link_text := text |}],
                       seenLinks ∪ {[ href ]})
            else Some st
        end
      else Some st
  | None => Some st
  end.

Definition linksLoop (baseUrl : string) (sel : list node)
  : option (list link * gset string) :=
  eachOrThrow (linksCallback baseUrl) sel ([], ∅).

Definition extractLinks (doc : document) (baseUrl : string)
  : option (list link) :=
  st ← linksLoop baseUrl (select (TagWithAttr "a" "href") doc);
  Some (take 20 st.1).

(** The entry that the callback pushes for an anchor. *)
Definition linkFrom (baseUrl : string) (a : node) (entry : link) : Prop :=
  ∃ href, attr "href" a = Some href ∧ href ≠ "" ∧
          resolveLinkHref baseUrl href = Resolved (link_href entry) ∧
          link_text entry = cleanText (text a) ∧
          linkTextWanted (link_text entry) = true.

(** *** Headings and paragraphs *)

Definition headingTags : list string := ["h1"; "h2"; "h3"; "h4"; "h5"; "h6"].

(** The callback of [$('h1, h2, h3, h4, h5, h6').each]. *)
Definition headingsCallback (headings : list heading) (h : node)
  : list heading :=
  let text := cleanText (text h) in
  let level := JS.toLowerCase (tagName h) in
  if JS.truthy text && (2 <? String.length text)
  then headings ++ [{| heading_level := level; heading_text := text |}]
  else headings.

Definition extractHeadings (doc : document) : list heading :=
  take 15 (each headingsCallback (select (AnyTag headingTags) doc) []).

(** The callback of [$('p').each]. *)
Definition paragraphsCallback (paragraphs : list string) (p : node)
  : list string :=
  let text := cleanText (text p) in
  if JS.truthy text && (20 <? String.length text) && (String.length text <? 500)
  then paragraphs ++ [text]
  else paragraphs.

Definition extractParagraphs (doc : document) : list string :=
  take 10 (each paragraphsCallback (select (Tag "p") doc) []).

(** The level and cleaned text of a heading element, and the cleaned text
    of a paragraph. *)
Definition headingEntry (h : node) : heading :=
  {| heading_level := JS.toLowerCase (tagName h);
     heading_text := cleanText (text h) |}.

Definition paragraphText (p : node) : string := cleanText (text p).

(** *** The whole record *)

(** [response.data], by what [cheerio.load] makes of it.  A body that
    reaches the scraper as a string is parsed into a document, whatever it
    holds.  A body that is JSON reaches it as the value [axios] has parsed
    it into, and on a value such as [null] or a number [cheerio.load]
    throws; [message] is the message of that error. *)
Inductive Data : Type :=
| Loads (doc : document)
| LoadThrows (message : string).

(** What [axios.get] resolves to, as far as the scraper reads it: with its
    data as [axios] hands it over ([Response Data]), and with the document
    that [cheerio.load] made of it in the place of the data
    ([Response document]). *)
Record Response (D : Type) := {
  response_data : D;
  response_status : nat;
  response_contentType : option string (* [response.headers['content-type']] *)
}.
Global Arguments response_data {D} _.
Global Arguments response_status {D} _.
Global Arguments response_contentType {D} _.

(** The scraped record.  [metaTags] is the object of [extractMetaTags]
    below, [scrapedAt] the clock; no property reads them from a record and
    they are left out of it. *)
Record Result := {
  title : string;
  description : string;
  domain : string;
  url : string;
  images : list image;
  links : list link;
  headings : list heading;
  paragraphs : list string;
  bodyText : string;
  responseStatus : nat;
  contentType : string
}.

(** [cleanText($('title').text()) || 'No title found'] *)
Definition scrapeTitle (doc : document) : string :=
  JS.orString (Some (cleanText (textOf (select (Tag "title") doc))))
              "No title found".

(** The title as the specification words it: the cleaned text of the first
    title element, and the fallback when there is none or its text cleans
    to nothing. *)
Definition titleOfFirstElement (doc : document) : string :=
  match select (Tag "title") doc with
  | [] => "No title found"
  | first :: _ => JS.orString (Some (cleanText (text first))) "No title found"
  end.

(** Lines 1082-1084 and 1110. *)
Definition scrapeDescription (doc : document) : string :=
  let description :=
    JS.orString
      (JS.or (attrOfFirst "content"
                (select (TagAttrIs "meta" "name" "description") doc))
             (attrOfFirst "content"
                (select (TagAttrIs "meta" "property" "og:description") doc)))
      "No description available" in
  cleanText description.

(** [cleanText($('body').text()).substring(0, 1000)] *)
Definition scrapeBodyText (doc : document) : string :=
  JS.substring0 1000 (cleanText (textOf (select (Tag "body") doc))).

(** Lines 1078-1122 of [scrapeWebpage]: the record built from a response
    whose data is loaded.  [None] when a [URL] constructor throws on the
    way. *)
Definition buildResult (url : string) (response : Response document)
  : option Result :=
  let doc := response_data response in
  baseUrl ← url_origin <$> new_URL url;
  let title := scrapeTitle doc in
  images ← extractImages doc baseUrl;
  links ← extractLinks doc baseUrl;
  let headings := extractHeadings doc in
  let paragraphs := extractParagraphs doc in
  let bodyText := scrapeBodyText doc in
  urlObj ← new_URL url;
  Some {| title := title;
          description := scrapeDescription doc;
          domain := url_hostname urlObj;
          url := url;
          images := images;
          links := links;
          headings := headings;
          paragraphs := paragraphs;
          bodyText := bodyText;
          responseStatus := response_status response;
          contentType :=
            JS.orString (response_contentType response) "unknown" |}.

(** *** Fetching *)

(** What the [catch] of [scrapeWebpage] reads of the value it caught. *)
Record Thrown := {
  error_code : option string;               (* [error.code] *)
  error_response : option (nat * string);   (* [status], [statusText] *)
  error_message : string                    (* [error.message] *)
}.

(** The [TypeError] of the [URL] constructor. *)
Definition invalidURL : Thrown :=
  {| error_code := Some "ERR_INVALID_URL";
     error_response := None;
     error_message := "Invalid URL" |}.

(** The [Error] that [scrapeWebpage] throws, one constructor for each message
    of lines 1137-1147. *)
Inductive ScrapeError : Type :=
| WebsiteNotFound
| ConnectionRefused
| RequestTimedOut
| HttpError (status : nat) (statusText : string)
| FailedToScrape (message : string).

Definition translateError (error : Thrown) : ScrapeError :=
  if bool_decide (error_code error = Some "ENOTFOUND") then WebsiteNotFound
  else if bool_decide (error_code error = Some "ECONNREFUSED")
  then ConnectionRefused
  else if bool_decide (error_code error = Some "ETIMEDOUT") then RequestTimedOut
  else match error_response error with
       | Some (S n, statusText) => HttpError (S n) statusText
       | _ => FailedToScrape (error_message error)
       end.

(** [cheerio.load(response.data)] (line 1077): the document, or the error it
    throws, which has neither a [code] nor a [response]. *)
Definition cheerio_load (data : Data) : document + Thrown :=
  match data with
  | Loads doc => inl doc
  | LoadThrows message =>
      inr {| error_code := None; error_response := None;
             error_message := message |}
  end.

(** The response with [$] in the place of its data. *)
Definition loaded (doc : document) (response : Response Data)
  : Response document :=
  {| response_data := doc;
     response_status := response_status response;
     response_contentType := response_contentType response |}.

(** [scrapeWebpage] from the point where [axios.get] has settled (lines
    1077-1148); [answer] is the response, or what the rejected promise
    carries. *)
Definition scrapeWebpage_from (url : string) (answer : Response Data + Thrown)
  : Result + ScrapeError :=
  match answer with
  | inr error => inr (translateError error)
  | inl response =>
      match cheerio_load (response_data response) with
      | inr error => inr (translateError error)
      | inl doc =>
          match buildResult url (loaded doc response) with
          | Some result => inl result
          | None => inr (translateError invalidURL)
          end
      end
  end.

(** [axios.get(url, ...)], as the web answers at the time of the call. *)
Variable axios_get : string -> Response Data + Thrown.

Definition scrapeWebpage (url : string) : Result + ScrapeError :=
  scrapeWebpage_from url (axios_get url).

End Extractor.

(** ** Loop states without a repeated address *)

(** The state of the images loop, and of the links loop, when no address
    was pushed twice and every address pushed is in the set of those
    seen. *)
Definition imagesNoted (st : list image * gset string) : Prop :=
  NoDup (img_src <$> st.1) ∧ ∀ s, s ∈ img_src <$> st.1 → s ∈ st.2.

Definition linksNoted (st : list link * gset string) : Prop :=
  NoDup (link_href <$> st.1) ∧ ∀ s, s ∈ link_href <$> st.1 → s ∈ st.2.

(** ** Meta tags *)

(** [$(elem).attr('name') || $(elem).attr('property')] *)
Definition metaKey (elem : node) : option string :=
  JS.or (attr "name" elem) (attr "property" elem).

(** The callback of [$('meta').each] in [extractMetaTags]; [metaTags] is an
    object used as a map from strings to strings.  An assignment to the key
    [__proto__] of a plain object goes to the setter of [Object.prototype],
    which ignores a string, so it adds no property. *)
Definition metaTagsCallback (metaTags : gmap string string) (elem : node)
  : gmap string string :=
  match metaKey elem, attr "content" elem with
  | Some name, Some content =>
      if JS.truthy name && JS.truthy content then
        if String.eqb name "__proto__" then metaTags
        else <[ name := content ]> metaTags
      else metaTags
  | _, _ => metaTags
  end.

Definition extractMetaTags (doc : document) : gmap string string :=
  each metaTagsCallback (select (Tag "meta") doc) ∅.

(** The element is recorded under the key [k] with the content [v]. *)
Definition metaRecorded (elem : node) (k v : string) : Prop :=
  metaKey elem = Some k ∧ attr "content" elem = Some v ∧
  k ≠ "" ∧ v ≠ "" ∧ k ≠ "__proto__".

(** ** A [URL] constructor for examples *)

(** The constructor on URLs of the shape [scheme://host/path] with one of
    the special schemes, a host and a path written without dot segments,
    ports, credentials, queries or escapes, and on references relative to
    such a base; on these it returns what Node's [URL] returns.  It rejects
    every other string, among them some that Node accepts (a [mailto:]
    address, say); the examples below keep clear of those. *)
Module SimpleURL.

Definition schemes : list string := ["http"; "https"; "ftp"; "ws"; "wss"].

Fixpoint dropUnits (n : nat) (s : string) : string :=
  match n, s with
  | S n', String _ s' => dropUnits n' s'
  | _, _ => s
  end.

(** The part before the first slash, and the rest. *)
Fixpoint splitAtSlash (s : string) : string * string :=
  match s with
  | EmptyString => (EmptyString, EmptyString)
  | String c s' =>
      if Ascii.eqb c "/" then (EmptyString, s)
      else let '(h, p) := splitAtSlash s' in (String c h, p)
  end.

(** The path up to and with its last slash. *)
Fixpoint directory (path : string) : string :=
  match path with
  | EmptyString => EmptyString
  | String c s' =>
      match directory s' with
      | EmptyString => if Ascii.eqb c "/" then "/" else EmptyString
      | d => String c d
      end
  end.

Definition parseWith (scheme s : string) : option URL :=
  if JS.startsWith (scheme +:+ "://") s then
    let '(host, path) := splitAtSlash (dropUnits (String.length scheme + 3) s) in
    if JS.truthy host then
      let origin := scheme +:+ "://" +:+ host in
      Some {| url_protocol := scheme +:+ ":";
              url_host := host;
              url_hostname := host;
              url_origin := origin;
              url_href := origin +:+ (if JS.truthy path then path else "/") |}
    else None
  else None.

Definition new_URL (s : string) : option URL :=
  list_find (fun u : option URL => is_Some u) (flip parseWith s <$> schemes)
    ≫= snd.

Definition hasScheme (s : string) : bool :=
  existsb (fun scheme => JS.startsWith (scheme +:+ ":") s) schemes.

Definition new_URL_base (s base : string) : option URL :=
  if hasScheme s then new_URL s
  else
    b ← new_URL base;
    if JS.startsWith "//" s then new_URL (url_protocol b +:+ s)
    else if JS.startsWith "/" s then new_URL (url_origin b +:+ s)
    else
      let path := dropUnits (String.length (url_origin b)) (url_href b) in
      new_URL (url_origin b +:+ directory path +:+ s).

End SimpleURL.

(** ** The result cache *)

(** A JavaScript [Map] with string keys: its entries in iteration order,
    which is the order in which the keys were first inserted. *)
Module JSMap.
Section Operations.
Context {V : Type}.

Definition t : Type := list (string * V).

(** [new Map()] *)
Definition empty : t := [].

(** [m.get(key)] *)
Fixpoint get (key : string) (m : t) : option V :=
  match m with
  | [] => None
  | (k, v) :: rest => if String.eqb key k then Some v else get key rest
  end.

(** [m.has(key)] *)
Definition has (key : string) (m : t) : bool :=
  match get key m with Some _ => true | None => false end.

(** [m.set(key, value)]: the value of a present key is replaced where the
    key stands, a new key goes to the end. *)
Fixpoint set (key : string) (value : V) (m : t) : t :=
  match m with
  | [] => [(key, value)]
  | (k, v) :: rest =>
      if String.eqb key k then (k, value) :: rest
      else (k, v) :: set key value rest
  end.

(** [m.delete(key)] *)
Fixpoint delete (key : string) (m : t) : t :=
  match m with
  | [] => []
  | (k, v) :: rest =>
      if String.eqb key k then rest else (k, v) :: delete key rest
  end.

(** [m.size] *)
Definition size (m : t) : nat := length m.

(** [m.keys()] and [m.values()], as the arrays they iterate. *)
Definition keys (m : t) : list string := m.*1.
Definition values (m : t) : list V := m.*2.

(** [m.clear()] *)
Definition clear (m : t) : t := [].

(** The keys of a [Map] are distinct. *)
Definition wf (m : t) : Prop := NoDup (keys m).

End Operations.
Global Arguments t : clear implicits.
End JSMap.

(** ** The routes *)

Section Server.

Variable new_URL : string -> option URL.
Variable new_URL_base : string -> string -> option URL.

(** What [app.post('/scrape')] sends back. *)
Inductive Reply : Type :=
| BadRequest (error : string)            (* status 400 *)
| Scraped (data : Result)                (* status 200 *)
| ScrapeFailed (details : ScrapeError).  (* status 500 *)

(** Lines 1183-1189: store the record, then drop the first key of the map
    when more than 50 are held. *)
Definition storeResult (url : string) (scrapedData : Result)
    (scrapedResults : JSMap.t Result) : JSMap.t Result :=
  let scrapedResults := JSMap.set url scrapedData scrapedResults in
  if 50 <? JSMap.size scrapedResults then
    match head (JSMap.keys scrapedResults) with
    | Some firstKey => JSMap.delete firstKey scrapedResults
    | None => scrapedResults
    end
  else scrapedResults.

(** [app.post('/scrape')] is an [async] handler.  When a request arrives it
    runs up to [await scrapeWebpage(url)] (lines 1158-1180); it runs on from
    there (lines 1180-1199) once the scrape has settled, on the map as it is
    by then.  Other requests are taken up in between. *)

(** The first part, for a request whose body holds [url] (a string or
    nothing): the reply it sends at once, or the address whose scrape it
    waits for. *)
Inductive Arrival : Type :=
| Replies (reply : Reply)
| Awaits (url : string).

Definition postScrape_arrive (url : option string)
    (scrapedResults : JSMap.t Result) : Arrival :=
  match url with
  | Some (String c u) =>
      let url := String c u in
      match new_URL url with
      | None => Replies (BadRequest "Invalid URL format")
      | Some _ =>
          match JSMap.get url scrapedResults with
          | Some cached => Replies (Scraped cached)
          | None => Awaits url
          end
      end
  | _ => Replies (BadRequest "URL is required")
  end.

(** The second part, for what [scrapeWebpage(url)] came to: the reply and
    the map afterwards. *)
Definition postScrape_resume (url : string) (scraped : Result + ScrapeError)
    (scrapedResults : JSMap.t Result) : Reply * JSMap.t Result :=
  match scraped with
  | inr error => (ScrapeFailed error, scrapedResults)
  | inl scrapedData =>
      (Scraped scrapedData, storeResult url scrapedData scrapedResults)
  end.

(** [app.get('/results')] *)
Definition getResults (scrapedResults : JSMap.t Result) : list Result :=
  JSMap.values scrapedResults.

(** [app.delete('/results')] *)
Definition deleteResults (scrapedResults : JSMap.t Result) : JSMap.t Result :=
  JSMap.clear scrapedResults.

(** *** The server *)

(** The map, and the addresses of the requests that wait for their scrape,
    in the order in which they arrived. *)
Record Server := {
  scrapedResults : JSMap.t Result;
  pending : list string
}.

Definition start : Server := {| scrapedResults := JSMap.empty; pending := [] |}.

(** What happens to the server: a request arrives at one of the routes, or
    the [axios.get] of the [i]-th waiting request settles with [answer]. *)
Inductive Event : Type :=
| PostScrape (url : option string)
| Settles (i : nat) (answer : Response Data + Thrown)
| GetResults
| DeleteResults.

(** What the server sends when that happens. *)
Inductive Output : Type :=
| NoReply
| ScrapeReply (reply : Reply)
| ResultsReply (results : list Result)
| ResultsCleared.

Definition step (event : Event) (server : Server) : Output * Server :=
  match event with
  | PostScrape url =>
      match postScrape_arrive url (scrapedResults server) with
      | Replies reply => (ScrapeReply reply, server)
      | Awaits url =>
          (NoReply, {| scrapedResults := scrapedResults server;
                       pending := pending server ++ [url] |})
      end
  | Settles i answer =>
      match pending server !! i with
      | None => (NoReply, server)
      | Some url =>
          let resumed :=
            postScrape_resume url (scrapeWebpage_from new_URL new_URL_base url answer)
              (scrapedResults server) in
          (ScrapeReply resumed.1,
           {| scrapedResults := resumed.2;
              pending := delete i (pending server) |})
      end
  | GetResults => (ResultsReply (getResults (scrapedResults server)), server)
  | DeleteResults =>
      (ResultsCleared,
       {| scrapedResults := deleteResults (scrapedResults server);
          pending := pending server |})
  end.

(** The outputs of a sequence of events, and the server after them. *)
Fixpoint run (events : list Event) (server : Server) : list Output * Server :=
  match events with
  | [] => ([], server)
  | event :: events =>
      let stepped := step event server in
      let rest := run events stepped.2 in
      (stepped.1 :: rest.1, rest.2)
  end.

(** The maps the server can hold. *)
Definition reachable (m : JSMap.t Result) : Prop :=
  ∃ events, scrapedResults (run events start).2 = m.

(** *** A request on its own *)

(** [axios.get(url, ...)], as the web answers at the time of the request. *)
Variable axios_get : string -> Response Data + Thrown.

(** The handler run through both parts with no other event in between: the
    reply and the map afterwards.  This is one [PostScrape] followed at once
    by its [Settles] (see [reachable_post]); what overlapping requests do is
    said by [step] and [run]. *)
Definition postScrape (url : option string)
    (scrapedResults : JSMap.t Result) : Reply * JSMap.t Result :=
  match postScrape_arrive url scrapedResults with
  | Replies reply => (reply, scrapedResults)
  | Awaits url =>
      postScrape_resume url (scrapeWebpage new_URL new_URL_base axios_get url)
        scrapedResults
  end.

(** The four ways through [postScrape]: the reply and the map afterwards. *)
Inductive postScrape_run (url : option string) (m : JSMap.t Result)
  : Reply → JSMap.t Result → Prop :=
| run_rejected error :
    postScrape_run url m (BadRequest error) m
| run_cached k cached :
    url = Some k → JSMap.get k m = Some cached →
    postScrape_run url m (Scraped cached) m
| run_failed k details :
    url = Some k →
    scrapeWebpage new_URL new_URL_base axios_get k = inr details →
    postScrape_run url m (ScrapeFailed details) m
| run_stored k data :
    url = Some k → k ≠ "" → is_Some (new_URL k) → JSMap.get k m = None →
    scrapeWebpage new_URL new_URL_base axios_get k = inl data →
    postScrape_run url m (Scraped data) (storeResult k data m).

(** What holds of every map the routes build: its keys are distinct, and
    each of them went through the two checks at the head of the handler. *)
Definition validKey (key : string) : Prop :=
  key ≠ "" ∧ is_Some (new_URL key).

Definition cacheInv (scrapedResults : JSMap.t Result) : Prop :=
  JSMap.wf scrapedResults ∧ Forall validKey (JSMap.keys scrapedResults).

End Server.

(** ** The page *)

(** The second [URLScraper] class of the file (lines 309-904), as far as
    [handleSubmit] reaches: the two message boxes, the button with its
    loader, and the record on display.  The markup of the page is not part
    of the file; the elements the class looks up are taken to exist.
    Scrolling, the timer that hides a message again after five seconds, the
    history panel and the counter ([loadHistory], [updateStats]) touch
    nothing of this state and are not part of it. *)
Record Page := {
  errorText : string;       (* the text of [#errorMessage .message-text] *)
  errorHidden : bool;       (* [#errorMessage] has the class [hidden] *)
  successText : string;
  successHidden : bool;
  buttonDisabled : bool;    (* [scrapeBtn.disabled] *)
  buttonTextHidden : bool;  (* [btnText] has the class [hidden] *)
  loaderHidden : bool;      (* [loader] has the class [hidden] *)
  buttonLoading : bool;     (* [scrapeBtn] has the class [loading] *)
  currentScrapedData : option Result;
  detailsShown : option Result
    (* the record that [createWebpageDetailsHTML] rendered into [#results] *)
}.

Definition showError (message : string) (page : Page) : Page :=
  {| errorText := message; errorHidden := false;
     successText := successText page; successHidden := true;
     buttonDisabled := buttonDisabled page;
     buttonTextHidden := buttonTextHidden page;
     loaderHidden := loaderHidden page;
     buttonLoading := buttonLoading page;
     currentScrapedData := currentScrapedData page;
     detailsShown := detailsShown page |}.

Definition showSuccess (message : string) (page : Page) : Page :=
  {| errorText := errorText page; errorHidden := true;
     successText := message; successHidden := false;
     buttonDisabled := buttonDisabled page;
     buttonTextHidden := buttonTextHidden page;
     loaderHidden := loaderHidden page;
     buttonLoading := buttonLoading page;
     currentScrapedData := currentScrapedData page;
     detailsShown := detailsShown page |}.

Definition hideMessages (page : Page) : Page :=
  {| errorText := errorText page; errorHidden := true;
     successText := successText page; successHidden := true;
     buttonDisabled := buttonDisabled page;
     buttonTextHidden := buttonTextHidden page;
     loaderHidden := loaderHidden page;
     buttonLoading := buttonLoading page;
     currentScrapedData := currentScrapedData page;
     detailsShown := detailsShown page |}.

Definition setLoading (isLoading : bool) (page : Page) : Page :=
  {| errorText := errorText page; errorHidden := errorHidden page;
     successText := successText page; successHidden := successHidden page;
     buttonDisabled := isLoading;
     buttonTextHidden := isLoading;
     loaderHidden := negb isLoading;
     buttonLoading := isLoading;
     currentScrapedData := currentScrapedData page;
     detailsShown := detailsShown page |}.

(** [this.currentScrapedData = data; this.displayWebpageDetails(data)] *)
Definition displayWebpageDetails (data : Result) (page : Page) : Page :=
  {| errorText := errorText page; errorHidden := errorHidden page;
     successText := successText page; successHidden := successHidden page;
     buttonDisabled := buttonDisabled page;
     buttonTextHidden := buttonTextHidden page;
     loaderHidden := loaderHidden page;
     buttonLoading := buttonLoading page;
     currentScrapedData := Some data;
     detailsShown := Some data |}.

(** What [await fetch('/scrape', ...)] and [await response.json()] come
    to. *)
Inductive Answer : Type :=
| NoAnswer (message : string)      (* one of them rejects; [error.message] *)
| Refused (error : option string)  (* [!response.ok]; [data.error] *)
| Delivered (data : Result).       (* [response.ok]; the record *)

(** [handleSubmit] for the text in the address field; [fetchScrape] is the
    request for the trimmed address. *)
Definition handleSubmit (fetchScrape : string → Answer)
    (input : string) (page : Page) : Page :=
  let url := JS.trim input in
  if negb (JS.truthy url) then showError "Please enter a valid URL" page
  else
    let page := hideMessages (setLoading true page) in
    let page :=
      match fetchScrape url with
      | NoAnswer message =>
          showError (JS.orString (Some message) "Failed to analyze webpage") page
      | Refused error =>
          showError
            (JS.orString (Some (JS.orString error "Failed to scrape webpage"))
                         "Failed to analyze webpage")
            page
      | Delivered data =>
          showSuccess "Webpage analysis completed successfully!"
            (displayWebpageDetails data page)
      end in
    setLoading false page.

(** What the page receives for a reply of the route: [res.json(data)] has
    the status 200, the two [res.status(400)] and the [res.status(500)]
    bodies carry the text under [error]; the [details] of the last are not
    read by the page. *)
Definition answerOf (reply : Reply) : Answer :=
  match reply with
  | BadRequest error => Refused (Some error)
  | Scraped data => Delivered data
  | ScrapeFailed details => Refused (Some "Failed to scrape webpage")
  end.

(** ** Inputs for the examples *)

Definition imgElement (src alt : string) : node :=
  Element "img" [("src", src); ("alt", alt)] [].

Definition anchor (href text : string) : node :=
  Element "a" [("href", href)] [Text text].

Definition page (head body : list node) : document :=
  [Element "html" [] [Element "head" [] head; Element "body" [] body]].

(** [new URL("http://x.com")] *)
Definition xcom : URL :=
  {| url_protocol := "http:"; url_host := "x.com"; url_hostname := "x.com";
     url_origin := "http://x.com"; url_href := "http://x.com/" |}.

(** The same picture twice, by the same relative address. *)
Definition twoRelativeImages : document :=
  page [] [imgElement "/a.png" "first"; imgElement "/a.png" "second"].

(** The same picture twice, by the same absolute address. *)
Definition twoAbsoluteImages : document :=
  page [] [imgElement "http://x.com/a.png" "first";
           imgElement "http://x.com/a.png" "second"].

(** A description of blanks only. *)
Definition blankDescription : document :=
  page [Element "meta" [("name", "description"); ("content", "   ")] []] [].

(** A relative path that begins with the letters [http], and a reference
    that names another host without a scheme. *)
Definition unusualReferences : document :=
  page [] [imgElement "httpdocs/a.png" ""; imgElement "//cdn.x.com/a.png" ""].

(** References of every kind, one of them ([ftp://], no host) rejected by
    the [URL] constructor. *)
Definition mixedReferences : document :=
  page [] [imgElement "/a.png" "a"; imgElement "ftp://" "b";
           imgElement "c/d.png" "c"; imgElement "https://y.com/e.png" "e";
           anchor "/about" "About us"; anchor "ftp://" "Broken";
           anchor "mailto:me@x.com" "Write to me";
           anchor "news/today.html" "Today"].

(** A page title, and a second [title] inside an inline drawing. *)
Definition twoTitles : document :=
  page [Element "title" [] [Text "A"]]
       [Element "svg" [] [Element "title" [] [Text "B"]]].

Definition helloWorld : document :=
  page [Element "title" [] [Text "  Hello   World "]] [].

(** Anchors with texts of 3 and of 4 code units. *)
Definition shortTexts : document :=
  page [] [anchor "/abc" "abc"; anchor "/abcd" "abcd"].

(** Pictures whose addresses or alt texts carry the words of the filter. *)
Definition logosAndIcons : document :=
  page [] [imgElement "http://x.com/Logo.png" "";
           imgElement "http://x.com/ICON.png" "";
           imgElement "http://x.com/logo.png" "";
           imgElement "http://x.com/favicon.ico" "";
           imgElement "http://x.com/a.png" "Company LOGO";
           imgElement "http://x.com/b.png" "a photo"].

(** Twelve pictures [/p.png], [/px.png], ... *)
Definition twelveImages : document :=
  page [] ((fun i => imgElement ("/p" +:+ String.concat "" (replicate i "x")
                                      +:+ ".png") "") <$> seq 0 12).

(** Headings: one with blanks to clean, one too short, one more. *)
Definition someHeadings : document :=
  page [] [Element "h1" [] [Text " Main  title "];
           Element "h2" [] [Text "ab"];
           Element "h3" [] [Element "b" [] [Text "Part"]; Text " one"]].

Definition metaElement (name content : string) : node :=
  Element "meta" [("name", name); ("content", content)] [].

(** Meta elements: a name met twice, a [property], an empty content and the
    name [__proto__]. *)
Definition repeatedMeta : document :=
  page [metaElement "author" "A";
        Element "meta" [("property", "og:title"); ("content", "T")] [];
        metaElement "author" "B";
        metaElement "keywords" "";
        metaElement "__proto__" "x"] [].

(** The addresses [http://x.com/], [http://x.com/x], [http://x.com/xx],
    ... *)
Fixpoint numberedKey (n : nat) : string :=
  match n with
  | 0 => "http://x.com/"
  | S n' => numberedKey n' +:+ "x"
  end.

Definition emptyResult : Result :=
  {| title := "No title found"; description := "No description available";
     domain := "x.com"; url := "http://x.com";
     images := []; links := []; headings := []; paragraphs := [];
     bodyText := ""; responseStatus := 200; contentType := "unknown" |}.

Definition otherResult : Result :=
  {| title := "Other"; description := "No description available";
     domain := "x.com"; url := "http://x.com";
     images := []; links := []; headings := []; paragraphs := [];
     bodyText := ""; responseStatus := 200; contentType := "text/html" |}.

(** A site that answers one address with an empty page and refuses every
    other connection. *)
Definition exampleSite (url : string) : Response Data + Thrown :=
  if String.eqb url "http://y.com"
  then inl {| response_data := Loads [Element "html" [] [Element "body" [] []]];
              response_status := 200;
              response_contentType := None |}
  else inr {| error_code := Some "ECONNREFUSED";
              error_response := None;
              error_message := "connect ECONNREFUSED" |}.

Definition oneEntryCache : JSMap.t Result := [("http://x.com", otherResult)].

(** The record that scraping [http://y.com] at [exampleSite] gives. *)
Definition scrapedFromExample : Result :=
  {| title := "No title found"; description := "No description available";
     domain := "y.com"; url := "http://y.com";
     images := []; links := []; headings := []; paragraphs := [];
     bodyText := ""; responseStatus := 200; contentType := "unknown" |}.

(** The map after a first request, for [http://y.com]. *)
Definition afterFirstRequest : JSMap.t Result :=
  [("http://y.com", scrapedFromExample)].

(** Fifty entries, [http://x.com/] the oldest. *)
Definition fullCache : JSMap.t Result :=
  (fun i => (numberedKey i, emptyResult)) <$> seq 0 50.

(** ** The previews of the body text *)

(** What [createWebpageDetailsHTML] puts after the body text (line 598):
    [data.bodyText.length >= 1000 ? '...' : ''] *)
Definition previewMark (bodyText : string) : string :=
  if 1000 <=? String.length bodyText then "..." else "".

(** The text under "Content Preview:" in [downloadPDF] (lines 715-718);
    [None] when the block is not written. *)
Definition pdfContentPreview (bodyText : string) : option string :=
  if JS.truthy bodyText then
    Some (JS.substring0 1500 bodyText
          +:+ (if 1500 <? String.length bodyText then "..." else ""))
  else None.

(** ** The history panel *)

(** What [#historyContainer] holds: one of the two empty states that
    [displayHistory] writes, or the details of a sequence of records. *)
Inductive HistoryView : Type :=
| NoAnalysisHistory
| NoPreviousAnalyses
| HistoryItems (historyResults : list Result).

Record HistoryPanel := {
  totalScrapes : nat;
  historyContainer : HistoryView;
  historySectionHidden : bool  (* [#historySection] has the class [hidden] *)
}.

Definition displayHistory (results : list Result) (panel : HistoryPanel)
  : HistoryPanel :=
  if length results =? 0 then
    {| totalScrapes := totalScrapes panel;
       historyContainer := NoAnalysisHistory;
       historySectionHidden := historySectionHidden panel |}
  else
    let historyResults := drop 1 results in
    if length historyResults =? 0 then
      {| totalScrapes := totalScrapes panel;
         historyContainer := NoPreviousAnalyses;
         historySectionHidden := historySectionHidden panel |}
    else
      {| totalScrapes := totalScrapes panel;
         historyContainer := HistoryItems historyResults;
         historySectionHidden := historySectionHidden panel |}.

(** [loadHistory], for what [fetch('/results')] and [response.json()] come
    to: the array of the reply, or nothing when one of them rejects. *)
Definition loadHistory (answer : option (list Result)) (panel : HistoryPanel)
  : HistoryPanel :=
  match answer with
  | None => panel
  | Some results =>
      let panel :=
        {| totalScrapes := length results;
           historyContainer := historyContainer panel;
           historySectionHidden := historySectionHidden panel |} in
      if 0 <? length results then
        let panel := displayHistory results panel in
        {| totalScrapes := totalScrapes panel;
           historyContainer := historyContainer panel;
           historySectionHidden := false |}
      else
        {| totalScrapes := totalScrapes panel;
           historyContainer := historyContainer panel;
           historySectionHidden := true |}
  end.

(** The page once the record of [http://y.com] is on display. *)
Definition pageWithDetails : Page :=
  {| errorText := ""; errorHidden := true;
     successText := "Webpage analysis completed successfully!";
     successHidden := false;
     buttonDisabled := false; buttonTextHidden := false;
     loaderHidden := true; buttonLoading := false;
     currentScrapedData := Some scrapedFromExample;
     detailsShown := Some scrapedFromExample |}.

(** The requests of that page, against the server of the examples. *)
Definition fetchExample (address : string) : Answer :=
  answerOf
    (postScrape SimpleURL.new_URL SimpleURL.new_URL_base exampleSite
       (Some address) afterFirstRequest).1.

(** A page with a few words in its body, the answer that carries it, and
    the record built from that answer for [http://x.com]. *)
Definition greeting : document :=
  page [] [Element "div" [] [Text " Hello   there "]].

Definition greetingResponse : Response document :=
  {| response_data := greeting; response_status := 200;
     response_contentType := Some "text/html" |}.

Definition greetingResult : Result :=
  {| title := "No title found"; description := "No description available";
     domain := "x.com"; url := "http://x.com";
     images := []; links := []; headings := []; paragraphs := [];
     bodyText := "Hello there"; responseStatus := 200;
     contentType := "text/html" |}.

(** What [http://y.com] answers a moment after the answer of [exampleSite]:
    the page of [greeting]; and the record built from it. *)
Definition laterAnswer : Response Data + Thrown :=
  inl {| response_data := Loads greeting; response_status := 200;
         response_contentType := Some "text/html" |}.

Definition scrapedLater : Result :=
  {| title := "No title found"; description := "No description available";
     domain := "y.com"; url := "http://y.com";
     images := []; links := []; headings := []; paragraphs := [];
     bodyText := "Hello there"; responseStatus := 200;
     contentType := "text/html" |}.

(** Two requests for [http://y.com], the second arriving while the first
    waits for its scrape; then the two scrapes settle, in the order in which
    the requests arrived. *)
Definition overlappingRequests : list Event :=
  [PostScrape (Some "http://y.com"); PostScrape (Some "http://y.com");
   Settles 0 (exampleSite "http://y.com"); Settles 0 laterAnswer].

(** An answer whose body is the JSON text [null]. *)
Definition nullAnswer : Response Data + Thrown :=
  inl {| response_data := LoadThrows "cheerio.load() expects a string";
         response_status := 200;
         response_contentType := Some "application/json" |}.

(** The history panel of a page that has loaded nothing yet. *)
Definition hiddenPanel : HistoryPanel :=
  {| totalScrapes := 0; historyContainer := NoAnalysisHistory;
     historySectionHidden := true |}.

(** * Properties *)

(** ** The [URL] constructor of the examples *)

Example simple_url_absolute :
  url_href <$> SimpleURL.new_URL "http://x.com" = Some "http://x.com/".
Proof. reflexivity. Qed.

Example simple_url_relative :
  url_href <$> SimpleURL.new_URL_base "b/c.png" "https://x.com/a/index.html"
  = Some "https://x.com/a/b/c.png".
Proof. reflexivity. Qed.

Example simple_url_no_host :
  SimpleURL.new_URL_base "ftp://" "http://x.com" = None.
Proof. reflexivity. Qed.

(** ** Strings *)

Example cleanText_hello :
  cleanText "  Hello   World " = "Hello World".
Proof. reflexivity. Qed.

Module JSFacts.

Lemma string_app_cons c s t : String c s +:+ t = String c (s +:+ t).
Proof. reflexivity. Qed.

Lemma string_app_nil_r s : s +:+ "" = s.
Proof. induction s as [|c s IH]; [done|]. by rewrite string_app_cons, IH. Qed.

Lemma string_app_eq_nil s t : s +:+ t = "" → s = "" ∧ t = "".
Proof. by destruct s. Qed.

Lemma startsWith_app p s : JS.startsWith p s = true ↔ ∃ post, s = p +:+ post.
Proof.
  unfold JS.startsWith. revert s.
  induction p as [|a p IH]; intros s.
  - split; [by exists s | by destruct s].
  - destruct s as [|b s]; simpl.
    + split; [done | by intros [post ?]].
    + destruct (ascii_dec a b) as [->|Hne].
      * rewrite IH. split; intros [post Hpost]; exists post.
        -- by rewrite string_app_cons, <- Hpost.
        -- rewrite string_app_cons in Hpost. by simplify_eq.
      * split; [done|]. intros [post Hpost].
        rewrite string_app_cons in Hpost. by simplify_eq.
Qed.

Lemma includes_nil p : JS.includes p "" = JS.startsWith p "" || false.
Proof. reflexivity. Qed.

Lemma includes_cons p c s :
  JS.includes p (String c s) = JS.startsWith p (String c s) || JS.includes p s.
Proof. reflexivity. Qed.

Lemma includes_contains p s : JS.includes p s = true ↔ JS.contains p s.
Proof.
  induction s as [|c s IH].
  - rewrite includes_nil, orb_false_r, startsWith_app.
    split.
    + intros [post Hpost]. by exists "", post.
    + intros (pre & post & Hs). symmetry in Hs.
      apply string_app_eq_nil in Hs as [-> [-> ->]%string_app_eq_nil]. by exists "".
  - rewrite includes_cons, orb_true_iff, IH, startsWith_app. split.
    + intros [[post Hpost]|(pre & post & Hs)].
      * by exists "", post.
      * exists (String c pre), post. by rewrite string_app_cons, Hs.
    + intros ([|c' pre] & post & Hs).
      * left. by exists post.
      * right. rewrite string_app_cons in Hs. simplify_eq. by exists pre, post.
Qed.

Lemma not_includes p s : JS.includes p s = false ↔ ¬ JS.contains p s.
Proof. rewrite <- includes_contains. by destruct (JS.includes p s). Qed.

Lemma toLowerCase_app s t :
  JS.toLowerCase (s +:+ t) = JS.toLowerCase s +:+ JS.toLowerCase t.
Proof.
  induction s as [|c s IH]; [done|]. rewrite string_app_cons. simpl.
  by rewrite IH, string_app_cons.
Qed.

(** A split of the lower-case string is a split of the string. *)
Lemma toLowerCase_split s x y :
  JS.toLowerCase s = x +:+ y →
  ∃ a b, s = a +:+ b ∧ JS.toLowerCase a = x ∧ JS.toLowerCase b = y.
Proof.
  revert s. induction x as [|c x IH]; intros s Hs.
  - by exists "", s.
  - destruct s as [|d s]; [done|]. rewrite string_app_cons in Hs. simpl in Hs.
    simplify_eq. destruct (IH s) as (a & b & -> & <- & <-); [done|].
    by exists (String d a), b.
Qed.

Lemma includes_lower_anyCase p s :
  JS.includes p (JS.toLowerCase s) = true ↔ JS.containsAnyCase p s.
Proof.
  rewrite includes_contains. split.
  - intros (pre & post & Hs).
    apply toLowerCase_split in Hs as (a & b & -> & <- & Hb).
    apply toLowerCase_split in Hb as (w & c & -> & <- & <-).
    by exists a, w, c.
  - intros (pre & w & post & -> & <-).
    exists (JS.toLowerCase pre), (JS.toLowerCase post).
    by rewrite !toLowerCase_app.
Qed.

Lemma length_substring0 n s : String.length (JS.substring0 n s) ≤ n.
Proof.
  unfold JS.substring0. revert s.
  induction n as [|n IH]; intros [|c s]; simpl; try lia.
  specialize (IH s). lia.
Qed.

(** [substring(0, n)] keeps the first code units. *)
Lemma substring0_prefix n s : ∃ rest, s = JS.substring0 n s +:+ rest.
Proof.
  unfold JS.substring0. revert s.
  induction n as [|n IH]; intros [|c s]; simpl; try by eexists.
  destruct (IH s) as [rest Hrest]. exists rest. by rewrite string_app_cons, <- Hrest.
Qed.

(** *** [cleanText] joins the words of a string by single spaces *)

Lemma words_cons_space c s :
  JS.isWhiteSpace c = true → JS.words (String c s) = JS.words s.
Proof. intros Hc. simpl. by rewrite Hc. Qed.

Lemma words_cons_letter c s :
  JS.isWhiteSpace c = false →
  JS.words (String c s) =
    match JS.words s with
    | [] => [String c ""]
    | w :: ws =>
        if JS.startsWithWhiteSpace s then String c "" :: w :: ws
        else String c w :: ws
    end.
Proof.
  intros Hc. cbn [JS.words]. by rewrite Hc.
Qed.

Lemma words_trimStart s : JS.words (JS.trimStart s) = JS.words s.
Proof.
  induction s as [|c s IH]; [done|]. cbn [JS.trimStart].
  destruct (JS.isWhiteSpace c) eqn:Hc; [|done].
  by rewrite words_cons_space.
Qed.

Lemma trimStart_head s : JS.startsWithWhiteSpace (JS.trimStart s) = false.
Proof.
  induction s as [|c s IH]; [done|]. cbn [JS.trimStart].
  by destruct (JS.isWhiteSpace c) eqn:Hc.
Qed.

Lemma trimEnd_cons c s :
  JS.trimEnd (String c s) =
    match JS.trimEnd s with
    | "" => if JS.isWhiteSpace c then "" else String c ""
    | String d r => String c (String d r)
    end.
Proof. reflexivity. Qed.

(** What [trimEnd] leaves begins as the string began. *)
Lemma trimEnd_head s :
  JS.startsWithWhiteSpace (JS.trimEnd s) = true → JS.startsWithWhiteSpace s = true.
Proof.
  destruct s as [|c s]; [done|]. rewrite trimEnd_cons.
  destruct (JS.trimEnd s); [|done]. by destruct (JS.isWhiteSpace c) eqn:Hc.
Qed.

Lemma trimEnd_idem s : JS.trimEnd (JS.trimEnd s) = JS.trimEnd s.
Proof.
  induction s as [|c s IH]; [done|]. rewrite trimEnd_cons.
  destruct (JS.trimEnd s) as [|d r] eqn:Hr.
  - destruct (JS.isWhiteSpace c) eqn:Hc; [done|].
    rewrite trimEnd_cons. simpl. by rewrite Hc.
  - by rewrite trimEnd_cons, IH.
Qed.

Lemma trimEnd_nil_words s : JS.trimEnd s = "" ↔ JS.words s = [].
Proof.
  induction s as [|c s IH]; [done|]. rewrite trimEnd_cons.
  destruct (JS.isWhiteSpace c) eqn:Hc.
  - rewrite words_cons_space by done. rewrite <- IH.
    by destruct (JS.trimEnd s).
  - rewrite words_cons_letter by done. split.
    + by destruct (JS.trimEnd s).
    + destruct (JS.words s); [done|]. by destruct (JS.startsWithWhiteSpace s).
Qed.

Lemma startsWithWhiteSpace_trimEnd s :
  JS.trimEnd s ≠ "" → JS.startsWithWhiteSpace (JS.trimEnd s) = JS.startsWithWhiteSpace s.
Proof.
  destruct s as [|c s]; [done|]. rewrite trimEnd_cons.
  destruct (JS.trimEnd s); [|done]. by destruct (JS.isWhiteSpace c).
Qed.

Lemma words_trimEnd s : JS.words (JS.trimEnd s) = JS.words s.
Proof.
  induction s as [|c s IH]; [done|]. rewrite trimEnd_cons.
  destruct (JS.trimEnd s) as [|d r] eqn:Hr.
  - assert (Hs : JS.words s = []) by by apply trimEnd_nil_words.
    destruct (JS.isWhiteSpace c) eqn:Hc.
    + by rewrite words_cons_space, Hs.
    + rewrite (words_cons_letter c s), (words_cons_letter c "") by done.
      by rewrite Hs.
  - assert (Hhead : JS.startsWithWhiteSpace (String d r) = JS.startsWithWhiteSpace s).
    { rewrite <- Hr. apply startsWithWhiteSpace_trimEnd. by rewrite Hr. }
    destruct (JS.isWhiteSpace c) eqn:Hc.
    + rewrite (words_cons_space c s), (words_cons_space c (String d r)) by done.
      done.
    + rewrite (words_cons_letter c s), (words_cons_letter c (String d r))
        by done.
      by rewrite IH, Hhead.
Qed.

Lemma collapseFrom_cons b c s :
  JS.collapseFrom b (String c s) =
    if JS.isWhiteSpace c
    then (if b then JS.collapseFrom true s
          else String " " (JS.collapseFrom true s))
    else String c (JS.collapseFrom false s).
Proof. reflexivity. Qed.

Lemma unwords_cons w ws :
  JS.unwords (w :: ws) =
    match ws with [] => w | _ :: _ => w +:+ String " " (JS.unwords ws) end.
Proof. reflexivity. Qed.

(** On a string without white space at its end. *)
Lemma collapseFrom_words s :
  JS.trimEnd s = s →
  JS.collapseFrom true s = JS.unwords (JS.words s) ∧
  JS.collapseFrom false s =
    (if JS.startsWithWhiteSpace s then " " else "") +:+ JS.unwords (JS.words s).
Proof.
  induction s as [|c s IH]; [done|]. rewrite trimEnd_cons.
  intros Hfix.
  assert (Hs : JS.trimEnd s = s ∧ (s = "" → JS.isWhiteSpace c = false)).
  { destruct (JS.trimEnd s) as [|d r] eqn:Hr.
    - destruct (JS.isWhiteSpace c); [done|]. by simplify_eq.
    - by simplify_eq. }
  destruct Hs as [Hs Hlast]. destruct (IH Hs) as [IHt IHf].
  rewrite !collapseFrom_cons. cbn [JS.startsWithWhiteSpace].
  destruct (JS.isWhiteSpace c) eqn:Hc.
  - rewrite words_cons_space by done. by rewrite IHt.
  - rewrite words_cons_letter by done. rewrite IHf.
    assert (Hgoal : String c ((if JS.startsWithWhiteSpace s then " " else "")
                              +:+ JS.unwords (JS.words s))
                    = JS.unwords match JS.words s with
                                 | [] => [String c ""]
                                 | w :: ws =>
                                     if JS.startsWithWhiteSpace s
                                     then String c "" :: w :: ws
                                     else String c w :: ws
                                 end).
    { destruct (JS.words s) as [|w ws] eqn:Hw.
      - apply trimEnd_nil_words in Hw. rewrite Hs in Hw. by subst s.
      - destruct (JS.startsWithWhiteSpace s); [done|].
        rewrite !unwords_cons. by destruct ws. }
    by rewrite Hgoal.
Qed.

(** The cleaned text is the words of the text joined by single spaces:
    nothing before the first word or after the last, one space between two
    words. *)
Lemma cleanText_words s : cleanText s = JS.unwords (JS.words s).
Proof.
  unfold cleanText. destruct (JS.truthy s) eqn:Hs; [|by destruct s].
  unfold JS.collapseWhiteSpace, JS.trim.
  destruct (collapseFrom_words (JS.trimEnd (JS.trimStart s))) as [_ ->];
    [apply trimEnd_idem|].
  rewrite words_trimEnd, words_trimStart.
  destruct (JS.startsWithWhiteSpace (JS.trimEnd (JS.trimStart s))) eqn:Hhead;
    [|done].
  apply trimEnd_head in Hhead. by rewrite trimStart_head in Hhead.
Qed.

Lemma words_not_empty s : Forall (λ w, w ≠ "") (JS.words s).
Proof.
  induction s as [|c s IH]; [by apply Forall_nil|].
  destruct (JS.isWhiteSpace c) eqn:Hc.
  - by rewrite words_cons_space.
  - rewrite words_cons_letter by done.
    destruct IH as [|w ws Hw Hws]; [by apply Forall_singleton|].
    destruct (JS.startsWithWhiteSpace s);
      [apply Forall_cons_2; [done|] |]; by apply Forall_cons_2.
Qed.

Lemma cleanText_nil_words s : cleanText s = "" ↔ JS.words s = [].
Proof.
  rewrite cleanText_words. split; [|by intros ->].
  destruct (words_not_empty s) as [|w ws Hw _]; [done|].
  rewrite unwords_cons. destruct w; [done|]. by destruct ws.
Qed.

End JSFacts.

(** ** The map *)

Module JSMapFacts.
Section Facts.
Context {V : Type}.
Implicit Types (m : JSMap.t V) (k key : string) (v : V).

Lemma eqb_decide k1 k2 : String.eqb k1 k2 = bool_decide (k1 = k2).
Proof.
  destruct (String.eqb_spec k1 k2);
    [by rewrite bool_decide_eq_true_2 | by rewrite bool_decide_eq_false_2].
Qed.

Lemma get_None key m : JSMap.get key m = None ↔ key ∉ JSMap.keys m.
Proof.
  induction m as [|[k v] m IH]; simpl.
  - split; [intros _; apply not_elem_of_nil | done].
  - rewrite eqb_decide. case_bool_decide as Hk.
    + subst. split; [done | intros Hn; destruct Hn; apply list_elem_of_here].
    + rewrite IH, not_elem_of_cons. tauto.
Qed.

Lemma has_true key m : JSMap.has key m = true ↔ key ∈ JSMap.keys m.
Proof.
  unfold JSMap.has. destruct (JSMap.get key m) eqn:Hg.
  - split; [intros _ | done].
    destruct (decide (key ∈ JSMap.keys m)) as [|Hn]; [done|].
    apply get_None in Hn. congruence.
  - apply get_None in Hg. split; [done | by intros ?].
Qed.

Lemma has_false key m : JSMap.has key m = false ↔ key ∉ JSMap.keys m.
Proof. rewrite <- has_true. by destruct (JSMap.has key m). Qed.

(** A new key goes to the end. *)
Lemma set_absent key v m :
  key ∉ JSMap.keys m → JSMap.set key v m = m ++ [(key, v)].
Proof.
  induction m as [|[k v'] m IH]; simpl; [done|].
  rewrite not_elem_of_cons. intros [Hne Hm].
  rewrite eqb_decide, bool_decide_eq_false_2 by done. by rewrite IH.
Qed.

(** A present key keeps its place. *)
Lemma keys_set_present key v m :
  key ∈ JSMap.keys m → JSMap.keys (JSMap.set key v m) = JSMap.keys m.
Proof.
  unfold JSMap.keys.
  induction m as [|[k v'] m IH]; simpl; [by intros ?%elem_of_nil|].
  rewrite eqb_decide. case_bool_decide as Hk; [done|].
  intros [?|Hin]%elem_of_cons; [done|]. simpl. f_equal. by apply IH.
Qed.

Lemma size_set_present key v m :
  key ∈ JSMap.keys m → JSMap.size (JSMap.set key v m) = JSMap.size m.
Proof.
  intros Hin. apply (keys_set_present key v) in Hin.
  unfold JSMap.size, JSMap.keys in *.
  by rewrite <- (length_fmap fst), Hin, length_fmap.
Qed.

Lemma get_set_eq key v m : JSMap.get key (JSMap.set key v m) = Some v.
Proof.
  induction m as [|[k v'] m IH]; simpl.
  - by rewrite String.eqb_refl.
  - destruct (String.eqb key k) eqn:Hk; simpl; by rewrite Hk.
Qed.

Lemma get_set_ne key k v m :
  k ≠ key → JSMap.get k (JSMap.set key v m) = JSMap.get k m.
Proof.
  intros Hne. induction m as [|[k' v'] m IH]; simpl.
  - by rewrite eqb_decide, bool_decide_eq_false_2.
  - destruct (String.eqb key k') eqn:Hk; simpl; [|by rewrite IH].
    apply String.eqb_eq in Hk as <-.
    by rewrite eqb_decide, bool_decide_eq_false_2.
Qed.

Lemma get_app_l k m1 m2 :
  k ∈ JSMap.keys m1 → JSMap.get k (m1 ++ m2) = JSMap.get k m1.
Proof.
  induction m1 as [|[k' v'] m1 IH]; simpl; [by intros ?%elem_of_nil|].
  rewrite eqb_decide. case_bool_decide; [done|].
  intros [?|Hin]%elem_of_cons; [done|]. by apply IH.
Qed.

Lemma get_app_r k m1 m2 :
  k ∉ JSMap.keys m1 → JSMap.get k (m1 ++ m2) = JSMap.get k m2.
Proof.
  induction m1 as [|[k' v'] m1 IH]; simpl; [done|].
  rewrite not_elem_of_cons. intros [Hne Hm].
  rewrite eqb_decide, bool_decide_eq_false_2 by done. by apply IH.
Qed.

End Facts.
End JSMapFacts.

(** ** The cache at its capacity *)

Section CacheProperties.
Import JSMapFacts.
Implicit Types (m : JSMap.t Result) (url k : string) (data : Result).

Lemma storeResult_below url data m :
  JSMap.size (JSMap.set url data m) ≤ 50 →
  storeResult url data m = JSMap.set url data m.
Proof.
  intros Hsz. unfold storeResult.
  destruct (Nat.ltb_spec 50 (JSMap.size (JSMap.set url data m))); [lia|done].
Qed.

Lemma storeResult_absent url data m :
  url ∉ JSMap.keys m →
  storeResult url data m =
    if 50 <? S (JSMap.size m) then tail (m ++ [(url, data)])
    else m ++ [(url, data)].
Proof.
  intros Hnew. unfold storeResult. rewrite set_absent by done.
  unfold JSMap.size. rewrite length_app. simpl. rewrite Nat.add_1_r.
  destruct (50 <? S (length m)); [|done].
  destruct m as [|[k v] m]; simpl; [by rewrite String.eqb_refl|].
  by rewrite String.eqb_refl.
Qed.

(** C3. A map of exactly 50 distinct keys that takes a 51st loses one entry,
    the one at the head of the insertion order; the 49 others keep their
    values and their order, and the new key follows them. *)
Theorem storeResult_evicts_oldest url data m :
  JSMap.wf m → JSMap.size m = 50 → JSMap.has url m = false →
  ∃ oldest v rest,
    m = (oldest, v) :: rest ∧
    storeResult url data m = rest ++ [(url, data)] ∧
    JSMap.keys (storeResult url data m) = tail (JSMap.keys m) ++ [url] ∧
    JSMap.get oldest (storeResult url data m) = None ∧
    (∀ k, k ≠ oldest → k ≠ url →
          JSMap.get k (storeResult url data m) = JSMap.get k m) ∧
    JSMap.get url (storeResult url data m) = Some data ∧
    JSMap.size (storeResult url data m) = 50.
Proof.
  intros Hwf Hsize Hnew%has_false.
  destruct m as [|[oldest v] rest]; [done|].
  exists oldest, v, rest.
  assert (Hstore : storeResult url data ((oldest, v) :: rest)
                   = rest ++ [(url, data)]).
  { rewrite storeResult_absent by done. by rewrite Hsize. }
  rewrite Hstore.
  apply NoDup_cons in Hwf as [Hhead Hrest].
  apply not_elem_of_cons in Hnew as [Hne Hnew].
  split_and!; try done.
  - unfold JSMap.keys. by rewrite fmap_app.
  - destruct (decide (oldest ∈ JSMap.keys rest)) as [|Hn]; [done|].
    rewrite get_app_r by done. simpl.
    by rewrite eqb_decide, bool_decide_eq_false_2.
  - intros k Hko Hku. simpl.
    rewrite eqb_decide, bool_decide_eq_false_2 by done.
    destruct (decide (k ∈ JSMap.keys rest)) as [Hin|Hn].
    + by rewrite get_app_l.
    + rewrite get_app_r by done. simpl.
      rewrite eqb_decide, bool_decide_eq_false_2 by done.
      symmetry. by apply get_None.
  - rewrite get_app_r by done. simpl. by rewrite String.eqb_refl.
  - unfold JSMap.size in *. rewrite length_app. simpl in *. lia.
Qed.

(** C6. Storing under a key the full map already holds changes the value of
    that key and nothing else: no key leaves, none moves. *)
Theorem storeResult_existing_key url data m :
  JSMap.wf m → JSMap.size m = 50 → JSMap.has url m = true →
  storeResult url data m = JSMap.set url data m ∧
  JSMap.keys (storeResult url data m) = JSMap.keys m ∧
  JSMap.size (storeResult url data m) = 50 ∧
  JSMap.get url (storeResult url data m) = Some data ∧
  (∀ k, k ≠ url → JSMap.get k (storeResult url data m) = JSMap.get k m).
Proof.
  intros _ Hsize Hin%has_true.
  assert (Hstore : storeResult url data m = JSMap.set url data m).
  { apply storeResult_below. rewrite size_set_present by done. lia. }
  rewrite Hstore. split_and!; [done| | | |].
  - by apply keys_set_present.
  - by rewrite size_set_present.
  - apply get_set_eq.
  - intros k Hne. by apply get_set_ne.
Qed.

Lemma fullCache_wf : JSMap.wf fullCache.
Proof. apply (bool_decide_unpack _). vm_compute. exact I. Defined.

Lemma storeResult_evicts_oldest_witness :
  JSMap.wf fullCache ∧ JSMap.size fullCache = 50 ∧
  JSMap.has "http://y.com" fullCache = false ∧
  ∃ oldest v rest,
    fullCache = (oldest, v) :: rest ∧
    storeResult "http://y.com" otherResult fullCache
      = rest ++ [("http://y.com", otherResult)] ∧
    JSMap.keys (storeResult "http://y.com" otherResult fullCache)
      = tail (JSMap.keys fullCache) ++ ["http://y.com"] ∧
    JSMap.get oldest (storeResult "http://y.com" otherResult fullCache) = None ∧
    (∀ k, k ≠ oldest → k ≠ "http://y.com" →
          JSMap.get k (storeResult "http://y.com" otherResult fullCache)
          = JSMap.get k fullCache) ∧
    JSMap.get "http://y.com" (storeResult "http://y.com" otherResult fullCache)
      = Some otherResult ∧
    JSMap.size (storeResult "http://y.com" otherResult fullCache) = 50.
Proof.
  split; [exact fullCache_wf|]. split; [reflexivity|]. split; [reflexivity|].
  apply (storeResult_evicts_oldest "http://y.com" otherResult fullCache);
    [exact fullCache_wf | reflexivity | reflexivity].
Defined.

Lemma storeResult_existing_key_witness :
  JSMap.wf fullCache ∧ JSMap.size fullCache = 50 ∧
  JSMap.has "http://x.com/xxx" fullCache = true ∧
  storeResult "http://x.com/xxx" otherResult fullCache
    = JSMap.set "http://x.com/xxx" otherResult fullCache ∧
  JSMap.keys (storeResult "http://x.com/xxx" otherResult fullCache)
    = JSMap.keys fullCache ∧
  JSMap.size (storeResult "http://x.com/xxx" otherResult fullCache) = 50 ∧
  JSMap.get "http://x.com/xxx"
    (storeResult "http://x.com/xxx" otherResult fullCache)
    = Some otherResult ∧
  (∀ k, k ≠ "http://x.com/xxx" →
        JSMap.get k (storeResult "http://x.com/xxx" otherResult fullCache)
        = JSMap.get k fullCache).
Proof.
  split; [exact fullCache_wf|]. split; [reflexivity|]. split; [reflexivity|].
  apply (storeResult_existing_key "http://x.com/xxx" otherResult fullCache);
    [exact fullCache_wf | reflexivity | reflexivity].
Defined.

End CacheProperties.

(** ** The life of a cache entry *)

Section RouteProperties.
Import JSMapFacts.

Variable new_URL : string -> option URL.
Variable new_URL_base : string -> string -> option URL.
Variable axios_get : string -> Response Data + Thrown.

Implicit Types (m : JSMap.t Result) (k : string) (data : Result).

Local Abbreviation route := (postScrape new_URL new_URL_base axios_get).
Local Abbreviation scrape := (scrapeWebpage new_URL new_URL_base axios_get).
Local Abbreviation scrapeFrom := (scrapeWebpage_from new_URL new_URL_base).
Local Abbreviation inv := (cacheInv new_URL).
Local Abbreviation valid := (validKey new_URL).
Local Abbreviation ways := (postScrape_run new_URL new_URL_base axios_get).
Local Abbreviation arrive := (postScrape_arrive new_URL).
Local Abbreviation happen := (step new_URL new_URL_base).
Local Abbreviation happen_all := (run new_URL new_URL_base).
Local Abbreviation can_hold := (reachable new_URL new_URL_base).

(** A request waits for its scrape when its address went through the two
    checks and the map does not hold it. *)
Lemma postScrape_arrive_awaits url m k :
  arrive url m = Awaits k ↔
  url = Some k ∧ valid k ∧ JSMap.get k m = None.
Proof.
  unfold postScrape_arrive, validKey. split.
  - destruct url as [[|c u]|]; [done| |done].
    destruct (new_URL (String c u)) as [parsed|] eqn:Hvalid; [|done].
    destruct (JSMap.get (String c u) m) as [cached|] eqn:Hget; [done|].
    intros [= <-]. by rewrite Hvalid.
  - intros (-> & [Hne [parsed Hparsed]] & Hget).
    destruct k as [|c u]; [done|]. by rewrite Hparsed, Hget.
Qed.

Lemma postScrape_runs url m : ways url m (route url m).1 (route url m).2.
Proof.
  unfold postScrape, postScrape_arrive, postScrape_resume.
  destruct url as [[|c u]|]; simpl; try apply run_rejected.
  destruct (new_URL (String c u)) as [parsed|] eqn:Hvalid; simpl;
    [|apply run_rejected].
  destruct (JSMap.get (String c u) m) as [cached|] eqn:Hget; simpl.
  { by eapply run_cached. }
  destruct (scrape (String c u)) as [data|details] eqn:Hscrape; simpl.
  - by eapply run_stored.
  - by eapply run_failed.
Qed.

Lemma storeResult_shape k data m :
  k ∉ JSMap.keys m →
  storeResult k data m = m ++ [(k, data)] ∨
  ∃ oldest v rest, m = (oldest, v) :: rest ∧
                   storeResult k data m = rest ++ [(k, data)].
Proof.
  intros Hnew. rewrite storeResult_absent by done.
  destruct (Nat.ltb_spec 50 (S (JSMap.size m))) as [Hfull|]; [|by left].
  destruct m as [|[oldest v] rest]; [simpl in Hfull; lia|].
  right. by eexists _, _, _.
Qed.

(** The invariant under [set], for a key the map holds or not, and under
    the eviction. *)
Lemma set_inv k data m : valid k → inv m → inv (JSMap.set k data m).
Proof.
  intros Hvalid [Hwf Hkeys].
  destruct (decide (k ∈ JSMap.keys m)) as [Hin|Hnew].
  { unfold cacheInv, JSMap.wf. by rewrite keys_set_present. }
  rewrite set_absent by done.
  unfold cacheInv, JSMap.wf, JSMap.keys in *.
  rewrite fmap_app. simpl. split.
  - apply NoDup_app. split_and!; [done| |apply NoDup_singleton].
    intros x Hx ->%list_elem_of_singleton. done.
  - apply Forall_app. split; [done|]. by apply Forall_singleton.
Qed.

Lemma storeResult_inv k data m : valid k → inv m → inv (storeResult k data m).
Proof.
  intros Hvalid Hinv. apply (set_inv k data) in Hinv; [|done].
  unfold storeResult. destruct (50 <? _); [|done].
  destruct (JSMap.set k data m) as [|[oldest v] rest]; [done|].
  cbn [JSMap.keys fmap list_fmap fst head JSMap.delete].
  rewrite String.eqb_refl.
  destruct Hinv as [Hwf Hkeys]. unfold cacheInv, JSMap.wf, JSMap.keys in *.
  rewrite fmap_cons in Hwf, Hkeys. split.
  - by apply NoDup_cons in Hwf as [_ ?].
  - by apply Forall_cons in Hkeys as [_ ?].
Qed.

Lemma storeResult_get_new k data m :
  JSMap.get k m = None → JSMap.get k (storeResult k data m) = Some data.
Proof.
  intros Hnew%get_None.
  destruct (storeResult_shape k data m Hnew) as [->|(o & v & rest & -> & ->)].
  - rewrite get_app_r by done. simpl. by rewrite String.eqb_refl.
  - apply not_elem_of_cons in Hnew as [_ Hnew].
    rewrite get_app_r by done. simpl. by rewrite String.eqb_refl.
Qed.

Lemma storeResult_keys k k' data m :
  JSMap.get k m = None → k' ∈ JSMap.keys (storeResult k data m) →
  k' = k ∨ k' ∈ JSMap.keys m.
Proof.
  intros Hnew%get_None.
  destruct (storeResult_shape k data m Hnew) as [->|(o & v & rest & -> & ->)];
    unfold JSMap.keys; rewrite fmap_app; simpl;
    intros [Hin|Hin%list_elem_of_singleton]%elem_of_app; auto.
  right. by apply list_elem_of_further.
Qed.

Lemma storeResult_get_old k k' v data m :
  JSMap.wf m → JSMap.get k m = None → JSMap.get k' m = Some v →
  JSMap.get k' (storeResult k data m) = Some v ∨
  JSMap.get k' (storeResult k data m) = None.
Proof.
  intros Hwf Hnew%get_None Hold.
  assert (Hne : k' ≠ k).
  { intros ->. apply get_None in Hnew. congruence. }
  destruct (storeResult_shape k data m Hnew) as [->|(o & v' & rest & -> & ->)].
  - left. rewrite get_app_l; [done|].
    apply has_true. unfold JSMap.has. by rewrite Hold.
  - simpl in Hold. rewrite eqb_decide in Hold.
    apply NoDup_cons in Hwf as [Hhead _].
    case_bool_decide as Hk.
    + right. subst k'. rewrite get_app_r by done. simpl.
      by rewrite eqb_decide, bool_decide_eq_false_2.
    + left. rewrite get_app_l; [done|].
      apply has_true. unfold JSMap.has. by rewrite Hold.
Qed.

Lemma postScrape_inv url m : inv m → inv (route url m).2.
Proof.
  intros Hinv.
  destruct (postScrape_runs url m) as [| | |k' data Hurl Hne Hparse Hnew Hok];
    try done.
  by apply storeResult_inv.
Qed.

(** *** The maps the server can hold *)

Lemma run_app events1 events2 server :
  happen_all (events1 ++ events2) server
  = ((happen_all events1 server).1
       ++ (happen_all events2 (happen_all events1 server).2).1,
     (happen_all events2 (happen_all events1 server).2).2).
Proof.
  revert server. induction events1 as [|event events1 IH]; intros server.
  - cbn [app run fst snd]. by destruct (happen_all events2 server).
  - cbn [app run fst snd]. by rewrite IH.
Qed.

(** Every step changes the map by [storeResult] under an address that waits,
    or by clearing it, or not at all; and an address waits only after the
    two checks. *)
Lemma step_map event server :
  Forall valid (pending server) →
  Forall valid (pending (happen event server).2) ∧
  (scrapedResults (happen event server).2 = scrapedResults server ∨
   scrapedResults (happen event server).2 = JSMap.empty ∨
   ∃ k answer data,
     valid k ∧ scrapeFrom k answer = inl data ∧
     scrapedResults (happen event server).2
     = storeResult k data (scrapedResults server)).
Proof.
  intros Hpending. destruct event as [url|i answer| |]; cbn [step].
  - destruct (arrive url (scrapedResults server)) as [reply|k] eqn:Harrive;
      cbn [snd pending scrapedResults]; [by auto|].
    apply postScrape_arrive_awaits in Harrive as (_ & Hvalid & _).
    split; [|by left]. apply Forall_app. split; [done|].
    by apply Forall_singleton.
  - destruct (pending server !! i) as [k|] eqn:Hi;
      cbn [snd pending scrapedResults]; [|by auto].
    split; [by apply Forall_delete|].
    destruct (scrapeFrom k answer) as [data|error] eqn:Hscrape;
      cbn [postScrape_resume snd]; [|by left].
    right; right. exists k, answer, data. split_and!; [|done|done].
    eapply Forall_forall; [exact Hpending|]. by eapply list_elem_of_lookup_2.
  - by auto.
  - cbn [snd pending scrapedResults]. by auto.
Qed.

(** Induction over the maps the server can hold. *)
Lemma reachable_induction (P : JSMap.t Result → Prop) :
  P JSMap.empty →
  (∀ k answer data m,
     valid k → scrapeFrom k answer = inl data → P m →
     P (storeResult k data m)) →
  ∀ m, can_hold m → P m.
Proof.
  intros Hempty Hstore m [events <-].
  assert (Hrun : ∀ server,
            Forall valid (pending server) → P (scrapedResults server) →
            P (scrapedResults (happen_all events server).2)).
  { induction events as [|event events IH]; intros server Hpending HP;
      [done|].
    cbn [run snd].
    destruct (step_map event server Hpending)
      as [Hpending' [Hsame|[Hclear|(k & answer & data & Hk & Hok & Hmap)]]];
      apply IH; try done.
    - by rewrite Hsame.
    - by rewrite Hclear.
    - rewrite Hmap. by eapply Hstore. }
  apply Hrun; [apply Forall_nil_2 | done].
Qed.

Lemma reachable_start : can_hold JSMap.empty.
Proof. by exists []. Qed.

(** A request that no event interrupts, and a clearing, lead from one such
    map to another. *)
Lemma reachable_post url m : can_hold m → can_hold (route url m).2.
Proof.
  intros [events <-].
  set (server := (happen_all events (start)).2).
  unfold postScrape.
  destruct (arrive url (scrapedResults server)) as [reply|k] eqn:Harrive.
  { by exists events. }
  exists (events ++ [PostScrape url;
                     Settles (length (pending server)) (axios_get k)]).
  rewrite run_app. fold server. cbn [run step fst snd].
  rewrite Harrive. cbn [snd pending scrapedResults].
  rewrite lookup_app_r by done. rewrite Nat.sub_diag.
  cbn [lookup list_lookup snd scrapedResults]. done.
Qed.

Lemma reachable_delete m : can_hold m → can_hold (deleteResults m).
Proof.
  intros [events <-]. exists (events ++ [DeleteResults]).
  rewrite run_app. done.
Qed.

(** The invariant holds of every map the server can hold. *)
Lemma reachable_inv m : can_hold m → inv m.
Proof.
  apply reachable_induction.
  - split; [apply NoDup_nil_2 | apply Forall_nil_2].
  - intros k answer data m' Hk _ Hinv. by apply storeResult_inv.
Qed.

(** A request that no event interrupts.  When it fails it leaves the map as
    it was; a key enters the map only with the record of a scrape that
    succeeded for it; a request for a key the map holds is answered with the
    stored record and changes nothing; and the value stored under a key
    stays or leaves with its key. *)
Lemma postScrape_entry_lifecycle (url : option string) m :
  inv m →
  ((∀ data, (route url m).1 ≠ Scraped data) → (route url m).2 = m) ∧
  (∀ k, JSMap.has k m = false → JSMap.has k (route url m).2 = true →
        url = Some k ∧
        ∃ data, scrape k = inl data ∧
                (route url m).1 = Scraped data ∧
                JSMap.get k (route url m).2 = Some data) ∧
  (∀ k cached, url = Some k → JSMap.get k m = Some cached →
        route url m = (Scraped cached, m)) ∧
  (∀ k v, JSMap.get k m = Some v →
        JSMap.get k (route url m).2 = Some v ∨
        JSMap.get k (route url m).2 = None) ∧
  inv (route url m).2.
Proof.
  intros [Hwf Hkeys]. split_and!.
  - intros Hfail. destruct (postScrape_runs url m); try done.
    by destruct (Hfail data).
  - intros k Hout Hin.
    destruct (postScrape_runs url m) as [| | |k' data Hurl Hne Hparse Hnew Hok];
      try congruence.
    apply has_true in Hin. apply has_false in Hout.
    destruct (storeResult_keys _ _ _ _ Hnew Hin) as [->|]; [|done].
    split; [done|]. exists data. split_and!; try done.
    by apply storeResult_get_new.
  - intros k cached -> Hget.
    assert (Hvalid : valid k).
    { eapply Forall_forall; [exact Hkeys|].
      apply has_true. unfold JSMap.has. by rewrite Hget. }
    destruct Hvalid as [Hne [parsed Hparsed]].
    unfold postScrape, postScrape_arrive. destruct k as [|c u]; [done|].
    by rewrite Hparsed, Hget.
  - intros k v Hget.
    destruct (postScrape_runs url m) as [| | |k' data Hurl Hne Hparse Hnew Hok];
      auto.
    by eapply storeResult_get_old.
  - by apply postScrape_inv.
Qed.

End RouteProperties.

Lemma oneEntryCache_inv : cacheInv SimpleURL.new_URL oneEntryCache.
Proof.
  split.
  - apply (bool_decide_unpack _). vm_compute. exact I.
  - apply Forall_singleton. split; [done|]. vm_compute. by eexists.
Defined.

(** The three outcomes of the route on the one-entry cache: a stored key is
    served from the map, a refused connection and a malformed address leave
    the map alone, a first successful scrape appends its record. *)
Example postScrape_cached :
  postScrape SimpleURL.new_URL SimpleURL.new_URL_base exampleSite
    (Some "http://x.com") oneEntryCache
  = (Scraped otherResult, oneEntryCache).
Proof. reflexivity. Qed.

Example postScrape_refused :
  postScrape SimpleURL.new_URL SimpleURL.new_URL_base exampleSite
    (Some "http://z.com") oneEntryCache
  = (ScrapeFailed ConnectionRefused, oneEntryCache).
Proof. reflexivity. Qed.

Example postScrape_malformed :
  postScrape SimpleURL.new_URL SimpleURL.new_URL_base exampleSite
    (Some "not a url") oneEntryCache
  = (BadRequest "Invalid URL format", oneEntryCache).
Proof. reflexivity. Qed.

(** Reading the oldest entry does not save it: the next new address still
    pushes it out. *)
Example eviction_ignores_reads :
  postScrape SimpleURL.new_URL SimpleURL.new_URL_base exampleSite
    (Some "http://x.com/") fullCache
  = (Scraped emptyResult, fullCache) ∧
  JSMap.keys
    (postScrape SimpleURL.new_URL SimpleURL.new_URL_base exampleSite
       (Some "http://y.com") fullCache).2
  = tail (JSMap.keys fullCache) ++ ["http://y.com"].
Proof. split; reflexivity. Qed.

(** C9 (the code departs from it).  The check of line 1174 is made when a
    request arrives, the [set] of line 1183 when its scrape has settled.  A
    second request for an address that arrives while the first waits passes
    the check too; when the first has settled the entry exists, and when the
    second settles it is fetched again and its record put in the place of the
    first. *)
Theorem overlapping_request_replaces_entry :
  run SimpleURL.new_URL SimpleURL.new_URL_base (take 3 overlappingRequests)
    start
  = ([NoReply; NoReply; ScrapeReply (Scraped scrapedFromExample)],
     {| scrapedResults := [("http://y.com", scrapedFromExample)];
        pending := ["http://y.com"] |}) ∧
  run SimpleURL.new_URL SimpleURL.new_URL_base overlappingRequests start
  = ([NoReply; NoReply; ScrapeReply (Scraped scrapedFromExample);
      ScrapeReply (Scraped scrapedLater)],
     {| scrapedResults := [("http://y.com", scrapedLater)]; pending := [] |}) ∧
  scrapedFromExample ≠ scrapedLater.
Proof. split_and!; [reflexivity | reflexivity | discriminate]. Qed.

(** A request that arrives once the entry exists is served from the map. *)
Example request_after_the_entry :
  step SimpleURL.new_URL SimpleURL.new_URL_base
    (PostScrape (Some "http://y.com"))
    {| scrapedResults := afterFirstRequest; pending := [] |}
  = (ScrapeReply (Scraped scrapedFromExample),
     {| scrapedResults := afterFirstRequest; pending := [] |}).
Proof. reflexivity. Qed.

Example postScrape_first_success :
  JSMap.keys
    (postScrape SimpleURL.new_URL SimpleURL.new_URL_base exampleSite
       (Some "http://y.com") oneEntryCache).2
  = ["http://x.com"; "http://y.com"].
Proof. reflexivity. Qed.

(** ** The extraction rules: caps, order and filters *)

Section ExtractorProperties.
Import JSFacts.

Variable new_URL : string -> option URL.
Variable new_URL_base : string -> string -> option URL.

Local Abbreviation imagesCb := (imagesCallback new_URL new_URL_base).
Local Abbreviation linksCb := (linksCallback new_URL new_URL_base).
Local Abbreviation imageOf := (imageFrom new_URL new_URL_base).
Local Abbreviation linkOf := (linkFrom new_URL new_URL_base).

Lemma truthy_ne s : JS.truthy s = true ↔ s ≠ "".
Proof. by destruct s. Qed.

Lemma eachOrThrow_cons {S} (cb : S → node → option S) el rest st :
  eachOrThrow cb (el :: rest) st = cb st el ≫= eachOrThrow cb rest.
Proof. reflexivity. Qed.

Lemma eachOrThrow_app {S} (cb : S → node → option S) l1 l2 st :
  eachOrThrow cb (l1 ++ l2) st = eachOrThrow cb l1 st ≫= eachOrThrow cb l2.
Proof.
  revert st. induction l1 as [|el l1 IH]; intros st; simpl; [done|].
  destruct (cb st el); simpl; [apply IH | done].
Qed.

Lemma eachOrThrow_total {S} (cb : S → node → option S) sel st :
  (∀ st el, is_Some (cb st el)) → is_Some (eachOrThrow cb sel st).
Proof.
  intros Hcb. revert st. induction sel as [|el sel IH]; intros st; simpl.
  - by eexists.
  - destruct (Hcb st el) as [st' ->]. apply IH.
Qed.

(** One image element: the state stays, or one entry is pushed. *)
Lemma imagesCallback_step base images seen img st' :
  imagesCb base (images, seen) img = Some st' →
  st' = (images, seen) ∨
  ∃ entry, imageOf base img entry ∧
           st' = (images ++ [entry], seen ∪ {[ img_src entry ]}).
Proof.
  unfold imagesCallback.
  destruct (imageSrcAttr img) as [src|] eqn:Hsrc; [|left; congruence].
  destruct (JS.truthy src) eqn:Htruthy; simpl; [|left; congruence].
  case_bool_decide; simpl; [left; congruence|].
  destruct (resolveImageSrc _ _ base src) as [| |resolved] eqn:Hres;
    [done | left; congruence |].
  destruct (imageWanted resolved (imageAltAttr img)) eqn:Hwanted;
    [|left; congruence].
  intros [= <-]. right.
  exists {| img_src := resolved; img_alt := cleanText (imageAltAttr img) |}.
  split; [|done].
  exists src. simpl. split_and!; try done. by apply truthy_ne.
Qed.

Lemma imagesLoop_from base sel images seen images' seen' :
  eachOrThrow (imagesCb base) sel (images, seen) = Some (images', seen') →
  ∃ kept added, images' = images ++ added ∧ kept `sublist_of` sel ∧
                Forall2 (imageOf base) kept added.
Proof.
  revert images seen.
  induction sel as [|img sel IH]; intros images seen.
  - intros [= <- <-]. exists [], []. by rewrite app_nil_r.
  - rewrite eachOrThrow_cons.
    destruct (imagesCb base (images, seen) img) as [st|] eqn:Hstep; [|done].
    simpl. intros Hrest.
    apply imagesCallback_step in Hstep as [->|(entry & Hfrom & ->)];
      apply IH in Hrest as (kept & added & -> & Hsub & Hall).
    + exists kept, added. split_and!; [done| |done]. by apply sublist_cons.
    + exists (img :: kept), (entry :: added).
      split_and!; [by rewrite <- app_assoc | by apply sublist_skip|].
      by apply Forall2_cons.
Qed.

Lemma imagesCallback_total base st img :
  is_Some (new_URL base) → is_Some (imagesCb base st img).
Proof.
  intros [b Hb]. unfold imagesCallback, resolveImageSrc. destruct st.
  rewrite Hb.
  repeat (case_match; simpl; try done).
Qed.

(** One anchor: the state stays, or one entry is pushed. *)
Lemma linksCallback_step base links seen a st' :
  linksCb base (links, seen) a = Some st' →
  st' = (links, seen) ∨
  ∃ entry, linkOf base a entry ∧
           st' = (links ++ [entry], seen ∪ {[ link_href entry ]}).
Proof.
  unfold linksCallback.
  destruct (attr "href" a) as [href|] eqn:Hhref; [|left; congruence].
  destruct (JS.truthy href) eqn:Htruthy; simpl; [|left; congruence].
  destruct (JS.truthy (cleanText (text a))) eqn:Htext; simpl;
    [|left; congruence].
  case_bool_decide; simpl; [left; congruence|].
  destruct (resolveLinkHref _ _ base href) as [| |resolved] eqn:Hres;
    [done | left; congruence |].
  destruct (linkTextWanted (cleanText (text a))) eqn:Hwanted;
    [|left; congruence].
  intros [= <-]. right.
  exists {| link_href := resolved; link_text := cleanText (text a) |}.
  split; [|done].
  exists href. simpl. split_and!; try done. by apply truthy_ne.
Qed.

Lemma linksLoop_from base sel links seen links' seen' :
  eachOrThrow (linksCb base) sel (links, seen) = Some (links', seen') →
  ∃ kept added, links' = links ++ added ∧ kept `sublist_of` sel ∧
                Forall2 (linkOf base) kept added.
Proof.
  revert links seen.
  induction sel as [|a sel IH]; intros links seen.
  - intros [= <- <-]. exists [], []. by rewrite app_nil_r.
  - rewrite eachOrThrow_cons.
    destruct (linksCb base (links, seen) a) as [st|] eqn:Hstep; [|done].
    simpl. intros Hrest.
    apply linksCallback_step in Hstep as [->|(entry & Hfrom & ->)];
      apply IH in Hrest as (kept & added & -> & Hsub & Hall).
    + exists kept, added. split_and!; [done| |done]. by apply sublist_cons.
    + exists (a :: kept), (entry :: added).
      split_and!; [by rewrite <- app_assoc | by apply sublist_skip|].
      by apply Forall2_cons.
Qed.

Lemma linksCallback_total base st a :
  is_Some (new_URL base) → is_Some (linksCb base st a).
Proof.
  intros [b Hb]. unfold linksCallback, resolveLinkHref. destruct st.
  rewrite Hb.
  repeat (case_match; simpl; try done).
Qed.

(** Pushing inside a loop is filtering in document order. *)
Lemma each_headings sel acc :
  each headingsCallback sel acc =
  acc ++ filter (λ h, 2 < String.length (heading_text h)) (headingEntry <$> sel).
Proof.
  unfold each. revert acc.
  induction sel as [|h sel IH]; intros acc; [simpl; by rewrite app_nil_r|].
  rewrite fmap_cons, filter_cons. cbn [foldl]. rewrite IH.
  unfold headingsCallback. fold (headingEntry h). cbn [heading_text headingEntry].
  destruct (Nat.ltb_spec 2 (String.length (cleanText (text h)))) as [Hlen|Hlen].
  - rewrite decide_True by done.
    destruct (cleanText (text h)) eqn:Htext; [simpl in Hlen; lia|].
    simpl. by rewrite <- app_assoc.
  - rewrite decide_False by lia. by rewrite andb_false_r.
Qed.

Lemma each_paragraphs sel acc :
  each paragraphsCallback sel acc =
  acc ++ filter (λ t, 20 < String.length t < 500) (paragraphText <$> sel).
Proof.
  unfold each. revert acc.
  induction sel as [|p sel IH]; intros acc; [simpl; by rewrite app_nil_r|].
  rewrite fmap_cons, filter_cons. cbn [foldl]. rewrite IH.
  unfold paragraphsCallback. fold (paragraphText p).
  destruct (Nat.ltb_spec 20 (String.length (paragraphText p))) as [Hlo|Hlo];
    destruct (Nat.ltb_spec (String.length (paragraphText p)) 500) as [Hhi|Hhi];
    rewrite ?andb_false_r, ?andb_true_r; simpl;
    try (rewrite decide_False by lia; done).
  rewrite decide_True by lia.
  destruct (paragraphText p) eqn:Htext; [simpl in Hlo; lia|].
  simpl. by rewrite <- app_assoc.
Qed.

Lemma extractImages_inv doc base imgs :
  extractImages new_URL new_URL_base doc base = Some imgs →
  ∃ all seen kept,
    imagesLoop new_URL new_URL_base base (select (Tag "img") doc)
      = Some (all, seen) ∧
    imgs = take 10 all ∧
    kept `sublist_of` select (Tag "img") doc ∧
    Forall2 (imageOf base) kept all.
Proof.
  unfold extractImages, imagesLoop.
  destruct (eachOrThrow _ _ _) as [[all seen]|] eqn:Hloop; [|done].
  intros [= <-].
  apply imagesLoop_from in Hloop as (kept & added & -> & Hsub & Hall).
  by exists added, seen, kept.
Qed.

Lemma extractLinks_inv doc base lnks :
  extractLinks new_URL new_URL_base doc base = Some lnks →
  ∃ all seen kept,
    linksLoop new_URL new_URL_base base (select (TagWithAttr "a" "href") doc)
      = Some (all, seen) ∧
    lnks = take 20 all ∧
    kept `sublist_of` select (TagWithAttr "a" "href") doc ∧
    Forall2 (linkOf base) kept all.
Proof.
  unfold extractLinks, linksLoop.
  destruct (eachOrThrow _ _ _) as [[all seen]|] eqn:Hloop; [|done].
  intros [= <-].
  apply linksLoop_from in Hloop as (kept & added & -> & Hsub & Hall).
  by exists added, seen, kept.
Qed.

Lemma extractImages_total doc base :
  is_Some (new_URL base) → is_Some (extractImages new_URL new_URL_base doc base).
Proof.
  intros Hbase. unfold extractImages, imagesLoop.
  destruct (eachOrThrow_total (imagesCb base) (select (Tag "img") doc) ([], ∅))
    as [st ->]; [|done].
  intros st el. by apply imagesCallback_total.
Qed.

Lemma extractLinks_total doc base :
  is_Some (new_URL base) → is_Some (extractLinks new_URL new_URL_base doc base).
Proof.
  intros Hbase. unfold extractLinks, linksLoop.
  destruct (eachOrThrow_total (linksCb base)
              (select (TagWithAttr "a" "href") doc) ([], ∅)) as [st ->];
    [|done].
  intros st el. by apply linksCallback_total.
Qed.

Lemma length_take_cap {A} n (l : list A) : length (take n l) ≤ n.
Proof. rewrite length_take. lia. Qed.

(** C8. The four sequences are the first 10, 20, 15 and 10 entries of what
    the filters let through, in the order of the elements in the document,
    and the body text is the first 1000 code units, at most, of the cleaned
    text of the body. *)
Theorem extracted_sequences_capped (doc : document) (baseUrl : string) :
  (∀ imgs, extractImages new_URL new_URL_base doc baseUrl = Some imgs →
     length imgs ≤ 10 ∧
     ∃ all seen kept,
       imagesLoop new_URL new_URL_base baseUrl (select (Tag "img") doc)
         = Some (all, seen) ∧
       imgs = take 10 all ∧
       kept `sublist_of` select (Tag "img") doc ∧
       Forall2 (imageOf baseUrl) kept all) ∧
  (∀ lnks, extractLinks new_URL new_URL_base doc baseUrl = Some lnks →
     length lnks ≤ 20 ∧
     ∃ all seen kept,
       linksLoop new_URL new_URL_base baseUrl
         (select (TagWithAttr "a" "href") doc) = Some (all, seen) ∧
       lnks = take 20 all ∧
       kept `sublist_of` select (TagWithAttr "a" "href") doc ∧
       Forall2 (linkOf baseUrl) kept all) ∧
  (length (extractHeadings doc) ≤ 15 ∧
   extractHeadings doc =
     take 15 (filter (λ h, 2 < String.length (heading_text h))
                     (headingEntry <$> select (AnyTag headingTags) doc))) ∧
  (length (extractParagraphs doc) ≤ 10 ∧
   extractParagraphs doc =
     take 10 (filter (λ t, 20 < String.length t < 500)
                     (paragraphText <$> select (Tag "p") doc))) ∧
  (String.length (scrapeBodyText doc) ≤ 1000 ∧
   ∃ rest, cleanText (textOf (select (Tag "body") doc))
           = scrapeBodyText doc +:+ rest) ∧
  (is_Some (new_URL baseUrl) →
     is_Some (extractImages new_URL new_URL_base doc baseUrl) ∧
     is_Some (extractLinks new_URL new_URL_base doc baseUrl)) ∧
  (∀ url status contentType result,
     buildResult new_URL new_URL_base url
       {| response_data := doc; response_status := status;
          response_contentType := contentType |} = Some result →
     length (images result) ≤ 10 ∧ length (links result) ≤ 20 ∧
     length (headings result) ≤ 15 ∧ length (paragraphs result) ≤ 10 ∧
     String.length (bodyText result) ≤ 1000).
Proof.
  split_and!.
  - intros imgs Himgs. apply extractImages_inv in Himgs as Hinv.
    destruct Hinv as (all & seen & kept & Hloop & -> & Hrest).
    split; [apply length_take_cap|]. by exists all, seen, kept.
  - intros lnks Hlnks. apply extractLinks_inv in Hlnks as Hinv.
    destruct Hinv as (all & seen & kept & Hloop & -> & Hrest).
    split; [apply length_take_cap|]. by exists all, seen, kept.
  - apply length_take_cap.
  - unfold extractHeadings. by rewrite each_headings.
  - apply length_take_cap.
  - unfold extractParagraphs. by rewrite each_paragraphs.
  - apply length_substring0.
  - apply substring0_prefix.
  - intros Hbase.
    split; [by apply extractImages_total | by apply extractLinks_total].
  - intros url status contentType result. unfold buildResult. simpl.
    destruct (new_URL url) as [parsed|]; simpl; [|done].
    destruct (extractImages _ _ doc _) as [imgs|] eqn:Himgs; simpl; [|done].
    destruct (extractLinks _ _ doc _) as [lnks|] eqn:Hlnks; simpl; [|done].
    intros [= <-]. simpl.
    apply extractImages_inv in Himgs as (? & ? & ? & _ & -> & _).
    apply extractLinks_inv in Hlnks as (? & ? & ? & _ & -> & _).
    split_and!; try apply length_take_cap. apply length_substring0.
Qed.

Lemma linkTextWanted_bounds t :
  linkTextWanted t = true ↔ 3 < String.length t < 100.
Proof.
  unfold linkTextWanted. rewrite andb_true_iff, !Nat.ltb_lt. tauto.
Qed.

(** An anchor with an address, a text, and an address not met before. *)
Lemma linksCallback_fresh base links seen a href resolved :
  attr "href" a = Some href → href ≠ "" → cleanText (text a) ≠ "" →
  href ∉ seen → resolveLinkHref new_URL new_URL_base base href = Resolved resolved →
  linksCb base (links, seen) a =
    Some (if linkTextWanted (cleanText (text a))
          then (links ++ [{| link_href := resolved;
                             link_text := cleanText (text a) |}],
                seen ∪ {[ resolved ]})
          else (links, seen)).
Proof.
  intros Hhref Hne%truthy_ne Htext%truthy_ne Hfresh Hres.
  unfold linksCallback. rewrite Hhref, Hne, Htext. simpl.
  rewrite bool_decide_eq_false_2 by done. simpl. rewrite Hres.
  by destruct (linkTextWanted _).
Qed.

(** C7. Every link of the result has a text of more than 3 and fewer than
    100 code units; an anchor that reaches the length test is pushed exactly
    when its text passes it, so not at length 3 and at length 4; and the
    first anchor of a document, when its text passes, heads the result. *)
Theorem link_text_length_bounds (doc : document) (baseUrl : string) :
  (∀ lnks entry,
     extractLinks new_URL new_URL_base doc baseUrl = Some lnks →
     entry ∈ lnks → 3 < String.length (link_text entry) < 100) ∧
  (∀ links seen a href resolved,
     attr "href" a = Some href → href ≠ "" → cleanText (text a) ≠ "" →
     href ∉ seen →
     resolveLinkHref new_URL new_URL_base baseUrl href = Resolved resolved →
     (String.length (cleanText (text a)) = 3 →
        linksCb baseUrl (links, seen) a = Some (links, seen)) ∧
     (String.length (cleanText (text a)) = 4 →
        linksCb baseUrl (links, seen) a =
          Some (links ++ [{| link_href := resolved;
                             link_text := cleanText (text a) |}],
                seen ∪ {[ resolved ]})) ∧
     (linksCb baseUrl (links, seen) a ≠ Some (links, seen) ↔
        3 < String.length (cleanText (text a)) < 100)) ∧
  (∀ a rest href resolved,
     select (TagWithAttr "a" "href") doc = a :: rest →
     attr "href" a = Some href → href ≠ "" →
     resolveLinkHref new_URL new_URL_base baseUrl href = Resolved resolved →
     is_Some (new_URL baseUrl) →
     3 < String.length (cleanText (text a)) < 100 →
     ∃ lnks, extractLinks new_URL new_URL_base doc baseUrl = Some lnks ∧
             head lnks = Some {| link_href := resolved;
                                 link_text := cleanText (text a) |}).
Proof.
  split_and!.
  - intros lnks entry Hlnks Hin.
    apply extractLinks_inv in Hlnks as (all & seen & kept & _ & -> & _ & Hall).
    apply subseteq_take in Hin.
    apply list_elem_of_lookup in Hin as [i Hi].
    destruct (Forall2_lookup_r _ _ _ _ _ Hall Hi) as (a & _ & Hfrom).
    destruct Hfrom as (href & _ & _ & _ & _ & Hwanted).
    by apply linkTextWanted_bounds.
  - intros links seen a href resolved Hhref Hne Htext Hfresh Hres.
    rewrite (linksCallback_fresh _ _ _ _ _ _ Hhref Hne Htext Hfresh Hres).
    destruct (linkTextWanted (cleanText (text a))) eqn:Hwanted.
    + apply linkTextWanted_bounds in Hwanted. split_and!; [lia|done|].
      split; [done|]. intros _ [= Hlinks _].
      apply (f_equal length) in Hlinks. rewrite length_app in Hlinks.
      simpl in Hlinks. lia.
    + assert (¬ 3 < String.length (cleanText (text a)) < 100) as Hout.
      { rewrite <- linkTextWanted_bounds. congruence. }
      split_and!; [done|lia|]. split; [done|]. by intros ?.
  - intros a rest href resolved Hsel Hhref Hne Hres Hbase Hlen.
    assert (Htext : cleanText (text a) ≠ "").
    { intros Hempty. rewrite Hempty in Hlen. simpl in Hlen. lia. }
    unfold extractLinks, linksLoop. rewrite Hsel, eachOrThrow_cons.
    rewrite (linksCallback_fresh _ _ _ _ _ _ Hhref Hne Htext) by
      (done || apply not_elem_of_empty).
    apply linkTextWanted_bounds in Hlen as ->. simpl.
    destruct (eachOrThrow_total (linksCb baseUrl) rest
                ([{| link_href := resolved; link_text := cleanText (text a) |}],
                 ∅ ∪ {[ resolved ]})) as [[all seen] Hloop].
    { intros st el. by apply linksCallback_total. }
    rewrite Hloop. simpl.
    apply linksLoop_from in Hloop as (kept & added & -> & _).
    by eexists.
Qed.

(** An image element with a source the loop has not met before. *)
Lemma imagesCallback_fresh base images seen img raw resolved :
  imageSrcAttr img = Some raw → raw ≠ "" → raw ∉ seen →
  resolveImageSrc new_URL new_URL_base base raw = Resolved resolved →
  imagesCb base (images, seen) img =
    Some (if imageWanted resolved (imageAltAttr img)
          then (images ++ [{| img_src := resolved;
                              img_alt := cleanText (imageAltAttr img) |}],
                seen ∪ {[ resolved ]})
          else (images, seen)).
Proof.
  intros Hsrc Hne%truthy_ne Hfresh Hres.
  unfold imagesCallback. rewrite Hsrc, Hne. simpl.
  rewrite bool_decide_eq_false_2 by done. simpl. rewrite Hres.
  by destruct (imageWanted _ _).
Qed.

(** C10. The filter looks for its four words in the resolved source as they
    are written and for "icon" and "logo" in the alt text in any letter
    case; an image that reaches the filter is pushed exactly when it passes.
    A source with "Logo" or "ICON" passes, an alt text with "LOGO" does
    not. *)
Theorem image_filter_case_sensitivity (src alt : string) :
  (imageWanted src alt = true ↔
     ¬ JS.contains "icon" src ∧ ¬ JS.contains "logo" src ∧
     ¬ JS.contains "favicon" src ∧ ¬ JS.contains "pixel" src ∧
     ¬ JS.containsAnyCase "icon" alt ∧ ¬ JS.containsAnyCase "logo" alt) ∧
  (∀ base images seen img raw,
     imageSrcAttr img = Some raw → raw ≠ "" → raw ∉ seen →
     resolveImageSrc new_URL new_URL_base base raw = Resolved src →
     imageAltAttr img = alt →
     imagesCb base (images, seen) img =
       Some (if imageWanted src alt
             then (images ++ [{| img_src := src; img_alt := cleanText alt |}],
                   seen ∪ {[ src ]})
             else (images, seen))) ∧
  imageWanted "http://x.com/Logo.png" alt
    = negb (JS.includes "icon" (JS.toLowerCase alt)) &&
      negb (JS.includes "logo" (JS.toLowerCase alt)) ∧
  imageWanted "http://x.com/ICON.png" alt
    = negb (JS.includes "icon" (JS.toLowerCase alt)) &&
      negb (JS.includes "logo" (JS.toLowerCase alt)) ∧
  imageWanted "http://x.com/logo.png" alt = false ∧
  imageWanted src "Company LOGO" = false ∧
  imageWanted src "An Icon" = false.
Proof.
  split_and!.
  - unfold imageWanted. rewrite !andb_true_iff, !negb_true_iff.
    rewrite <- !includes_lower_anyCase, !not_true_iff_false, <- !not_includes.
    tauto.
  - intros base images seen img raw Hsrc Hne Hfresh Hres <-.
    by apply (imagesCallback_fresh _ _ _ _ raw).
  - reflexivity.
  - reflexivity.
  - reflexivity.
  - unfold imageWanted. by rewrite !andb_false_r.
  - unfold imageWanted. by rewrite !andb_false_r.
Qed.

Lemma eachOrThrow_skip {S} (cb : S → node → option S) before el after st :
  (∀ st, cb st el = Some st) →
  eachOrThrow cb (before ++ el :: after) st = eachOrThrow cb (before ++ after) st.
Proof.
  intros Hskip. rewrite !eachOrThrow_app.
  destruct (eachOrThrow cb before st) as [st'|]; [|done].
  change (eachOrThrow cb (el :: after) st' = eachOrThrow cb after st').
  by rewrite eachOrThrow_cons, Hskip.
Qed.

Lemma imagesCallback_unresolved base st img raw :
  imageSrcAttr img = Some raw →
  JS.startsWith "/" raw = false → JS.startsWith "http" raw = false →
  new_URL_base raw base = None →
  imagesCb base st img = Some st.
Proof.
  intros Hsrc Hslash Hhttp Hfail. destruct st as [images seen].
  unfold imagesCallback, resolveImageSrc.
  rewrite Hsrc, Hslash, Hhttp, Hfail. simpl.
  by destruct (JS.truthy raw && _).
Qed.

Lemma linksCallback_unresolved base st a raw :
  attr "href" a = Some raw →
  JS.startsWith "/" raw = false → JS.startsWith "http" raw = false →
  JS.startsWith "mailto" raw = false → JS.startsWith "tel" raw = false →
  new_URL_base raw base = None →
  linksCb base st a = Some st.
Proof.
  intros Hhref Hslash Hhttp Hmailto Htel Hfail. destruct st as [links seen].
  unfold linksCallback, resolveLinkHref.
  rewrite Hhref, Hslash, Hhttp, Hmailto, Htel, Hfail. simpl.
  by destruct (JS.truthy raw && _ && _).
Qed.

(** How an address comes about.  With a base that parses, neither extraction
    fails.  The address of every entry comes from an element in one of three
    ways: a reference that begins with a slash follows the protocol and host
    of the base as it is written; one that begins with [http] (for anchors
    also [mailto] or [tel]) is kept as it is written; any other is what the
    [URL] constructor makes of it against the base.  An element whose
    reference the constructor rejects is passed over: the result is that of
    the document without it. *)
Lemma reference_resolution (doc : document) (baseUrl : string) (base : URL) :
  new_URL baseUrl = Some base →
  is_Some (extractImages new_URL new_URL_base doc baseUrl) ∧
  is_Some (extractLinks new_URL new_URL_base doc baseUrl) ∧
  (∀ imgs entry,
     extractImages new_URL new_URL_base doc baseUrl = Some imgs → entry ∈ imgs →
     ∃ img raw,
       img ∈ select (Tag "img") doc ∧ imageSrcAttr img = Some raw ∧
       if JS.startsWith "/" raw
       then img_src entry = url_protocol base +:+ "//" +:+ url_host base +:+ raw
       else if JS.startsWith "http" raw then img_src entry = raw
       else ∃ u, new_URL_base raw baseUrl = Some u ∧ img_src entry = url_href u) ∧
  (∀ lnks entry,
     extractLinks new_URL new_URL_base doc baseUrl = Some lnks → entry ∈ lnks →
     ∃ a raw,
       a ∈ select (TagWithAttr "a" "href") doc ∧ attr "href" a = Some raw ∧
       if JS.startsWith "/" raw
       then link_href entry = url_protocol base +:+ "//" +:+ url_host base +:+ raw
       else if JS.startsWith "http" raw || JS.startsWith "mailto" raw ||
               JS.startsWith "tel" raw
       then link_href entry = raw
       else ∃ u, new_URL_base raw baseUrl = Some u ∧ link_href entry = url_href u) ∧
  (∀ before img after raw,
     select (Tag "img") doc = before ++ img :: after →
     imageSrcAttr img = Some raw →
     JS.startsWith "/" raw = false → JS.startsWith "http" raw = false →
     new_URL_base raw baseUrl = None →
     extractImages new_URL new_URL_base doc baseUrl =
       (λ st, take 10 st.1) <$>
         imagesLoop new_URL new_URL_base baseUrl (before ++ after)) ∧
  (∀ before a after raw,
     select (TagWithAttr "a" "href") doc = before ++ a :: after →
     attr "href" a = Some raw →
     JS.startsWith "/" raw = false → JS.startsWith "http" raw = false →
     JS.startsWith "mailto" raw = false → JS.startsWith "tel" raw = false →
     new_URL_base raw baseUrl = None →
     extractLinks new_URL new_URL_base doc baseUrl =
       (λ st, take 20 st.1) <$>
         linksLoop new_URL new_URL_base baseUrl (before ++ after)).
Proof.
  intros Hbase. split_and!.
  - apply extractImages_total. by rewrite Hbase.
  - apply extractLinks_total. by rewrite Hbase.
  - intros imgs entry Himgs Hin.
    apply extractImages_inv in Himgs as (all & seen & kept & _ & -> & Hsub & Hall).
    apply subseteq_take in Hin.
    apply list_elem_of_lookup in Hin as [i Hi].
    destruct (Forall2_lookup_r _ _ _ _ _ Hall Hi) as (img & Himg & Hfrom).
    destruct Hfrom as (raw & Hsrc & _ & Hres & _).
    exists img, raw. split_and!; [|done|].
    { eapply elem_of_sublist; [|done]. apply list_elem_of_lookup. eauto. }
    unfold resolveImageSrc in Hres. rewrite Hbase in Hres.
    destruct (JS.startsWith "/" raw); [by simplify_eq|].
    destruct (JS.startsWith "http" raw); simpl in Hres; [by simplify_eq|].
    destruct (new_URL_base raw baseUrl) as [u|]; [|done].
    exists u. by simplify_eq.
  - intros lnks entry Hlnks Hin.
    apply extractLinks_inv in Hlnks as (all & seen & kept & _ & -> & Hsub & Hall).
    apply subseteq_take in Hin.
    apply list_elem_of_lookup in Hin as [i Hi].
    destruct (Forall2_lookup_r _ _ _ _ _ Hall Hi) as (a & Ha & Hfrom).
    destruct Hfrom as (raw & Hhref & _ & Hres & _).
    exists a, raw. split_and!; [|done|].
    { eapply elem_of_sublist; [|done]. apply list_elem_of_lookup. eauto. }
    unfold resolveLinkHref in Hres. rewrite Hbase in Hres.
    destruct (JS.startsWith "/" raw); [by simplify_eq|].
    destruct (JS.startsWith "http" raw); simpl in *; [by simplify_eq|].
    destruct (JS.startsWith "mailto" raw); simpl in *; [by simplify_eq|].
    destruct (JS.startsWith "tel" raw); simpl in *; [by simplify_eq|].
    destruct (new_URL_base raw baseUrl) as [u|]; [|done].
    exists u. by simplify_eq.
  - intros before img after raw Hsel Hsrc Hslash Hhttp Hfail.
    unfold extractImages, imagesLoop. rewrite Hsel.
    rewrite eachOrThrow_skip.
    + by destruct (eachOrThrow _ _ _).
    + intros st. by eapply imagesCallback_unresolved.
  - intros before a after raw Hsel Hhref Hslash Hhttp Hmailto Htel Hfail.
    unfold extractLinks, linksLoop. rewrite Hsel.
    rewrite eachOrThrow_skip.
    + by destruct (eachOrThrow _ _ _).
    + intros st. by eapply linksCallback_unresolved.
Qed.

End ExtractorProperties.

(** ** The rules on documents *)

Local Abbreviation images_of := (extractImages SimpleURL.new_URL SimpleURL.new_URL_base).
Local Abbreviation links_of := (extractLinks SimpleURL.new_URL SimpleURL.new_URL_base).

(** C1 (the code departs from it). [seenImages] holds resolved addresses but
    is asked about the address as written, so a relative address met twice
    is resolved and pushed twice. *)
Theorem extractImages_repeats_relative_source :
  images_of twoRelativeImages "http://x.com"
  = Some [{| img_src := "http://x.com/a.png"; img_alt := "first" |};
          {| img_src := "http://x.com/a.png"; img_alt := "second" |}].
Proof. reflexivity. Qed.

(** Written in full both times, the address is met in [seenImages]. *)
Example extractImages_absolute_source_once :
  images_of twoAbsoluteImages "http://x.com"
  = Some [{| img_src := "http://x.com/a.png"; img_alt := "first" |}].
Proof. reflexivity. Qed.

(** C2 (the code departs from it). The fallback is chosen before the
    cleaning, so a description of blanks is kept and cleans to the empty
    string. *)
Theorem description_of_blanks_is_empty :
  scrapeDescription blankDescription = "" ∧
  description <$>
    buildResult SimpleURL.new_URL SimpleURL.new_URL_base "http://x.com/index.html"
      {| response_data := blankDescription; response_status := 200;
         response_contentType := Some "text/html" |}
  = Some "".
Proof. split; reflexivity. Qed.

(** C4 (the code departs from it).  Under the comment "Handle relative
    URLs" the two tests on the first letters miss two kinds of relative
    reference: a path whose first letters are [http] is taken for an
    absolute address and not resolved at all, and a reference that names
    another host ([//host/path]) is taken for a path and glued to the host
    of the base.  The [URL] constructor, which the third branch uses,
    resolves both, to the addresses of the last two lines. *)
Theorem resolution_is_not_the_standard_one :
  images_of unusualReferences "http://x.com"
  = Some [{| img_src := "httpdocs/a.png"; img_alt := "" |};
          {| img_src := "http://x.com//cdn.x.com/a.png"; img_alt := "" |}] ∧
  url_href <$> SimpleURL.new_URL_base "httpdocs/a.png" "http://x.com"
  = Some "http://x.com/httpdocs/a.png" ∧
  url_href <$> SimpleURL.new_URL_base "//cdn.x.com/a.png" "http://x.com"
  = Some "http://cdn.x.com/a.png".
Proof. split_and!; reflexivity. Qed.

(** The rejected [ftp://] of [mixedReferences] is passed over, for images
    and for anchors. *)
Example extractImages_mixedReferences :
  images_of mixedReferences "http://x.com"
  = Some [{| img_src := "http://x.com/a.png"; img_alt := "a" |};
          {| img_src := "http://x.com/c/d.png"; img_alt := "c" |};
          {| img_src := "https://y.com/e.png"; img_alt := "e" |}].
Proof. reflexivity. Qed.

Example extractLinks_mixedReferences :
  links_of mixedReferences "http://x.com"
  = Some [{| link_href := "http://x.com/about"; link_text := "About us" |};
          {| link_href := "mailto:me@x.com"; link_text := "Write to me" |};
          {| link_href := "http://x.com/news/today.html";
             link_text := "Today" |}].
Proof. reflexivity. Qed.

(** A base that does not parse: a reference with a leading slash stops the
    extraction, any other is passed over. *)
Example extractImages_without_base :
  images_of twoRelativeImages "null" = None ∧
  images_of (page [] [imgElement "c/d.png" "c"]) "null" = Some [].
Proof. split; reflexivity. Qed.

(** Of the anchors with 3 and with 4 code units of text, the second is
    kept. *)
Example extractLinks_shortTexts :
  links_of shortTexts "http://x.com"
  = Some [{| link_href := "http://x.com/abcd"; link_text := "abcd" |}].
Proof. reflexivity. Qed.

Example extractImages_logosAndIcons :
  images_of logosAndIcons "http://x.com"
  = Some [{| img_src := "http://x.com/Logo.png"; img_alt := "" |};
          {| img_src := "http://x.com/ICON.png"; img_alt := "" |};
          {| img_src := "http://x.com/b.png"; img_alt := "a photo" |}].
Proof. reflexivity. Qed.

(** Of twelve pictures the first ten are kept. *)
Example extractImages_twelveImages :
  img_src <$> default [] (images_of twelveImages "http://x.com")
  = take 10 ((λ img, "http://x.com" +:+ default "" (attr "src" img))
               <$> select (Tag "img") twelveImages).
Proof. reflexivity. Qed.

(** ** The title *)

Section Title.
Import JSFacts.

Lemma orString_Some s b :
  JS.orString (Some s) b = if decide (s = "") then b else s.
Proof. by destruct s. Qed.

(** C5 (the code departs from it).  [$('title')] selects every [title]
    element of the document, not the one of its head, and [.text()] joins
    the texts of all it selects: with a second [title] further down, here in
    an inline [svg], the title of the page is followed by the text of that
    one. *)
Theorem title_is_not_of_the_first_element :
  scrapeTitle twoTitles = "AB" ∧ titleOfFirstElement twoTitles = "A".
Proof. split; reflexivity. Qed.

(** What the title is.  It is never empty.  It is the cleaned
    text of all [title] elements of the document, joined in document order,
    that is its words joined by single spaces, and the fallback when there
    is no [title] element or no word in them; with a single [title] element
    this is the cleaned text of that element. *)
Lemma title_joins_all_title_elements (doc : document) :
  scrapeTitle doc ≠ "" ∧
  (select (Tag "title") doc = [] → scrapeTitle doc = "No title found") ∧
  (JS.words (textOf (select (Tag "title") doc)) = [] →
     scrapeTitle doc = "No title found") ∧
  (JS.words (textOf (select (Tag "title") doc)) ≠ [] →
     scrapeTitle doc = cleanText (textOf (select (Tag "title") doc)) ∧
     scrapeTitle doc = JS.unwords (JS.words (textOf (select (Tag "title") doc)))) ∧
  (∀ only, select (Tag "title") doc = [only] →
     scrapeTitle doc = titleOfFirstElement doc) ∧
  (∀ attribs,
     select (Tag "title") doc
       = [Element "title" attribs [Text "  Hello   World "]] →
     scrapeTitle doc = "Hello World").
Proof.
  unfold scrapeTitle, titleOfFirstElement. rewrite orString_Some.
  split_and!.
  - by case_decide.
  - by intros ->.
  - intros Hnone%cleanText_nil_words. by rewrite decide_True.
  - intros Hsome. rewrite <- cleanText_nil_words in Hsome.
    rewrite decide_False by done. by rewrite <- cleanText_words.
  - intros only ->. cbn [textOf]. by rewrite string_app_nil_r, orString_Some.
  - by intros attribs ->.
Qed.

Example title_helloWorld : scrapeTitle helloWorld = "Hello World".
Proof. reflexivity. Qed.

Example title_missing : scrapeTitle (page [] []) = "No title found".
Proof. reflexivity. Qed.

End Title.

(** ** Meta tags *)

Section MetaTags.

Lemma metaTagsCallback_recorded m elem k v :
  metaRecorded elem k v → metaTagsCallback m elem = <[ k := v ]> m.
Proof.
  intros (Hkey & Hcontent & Hk & Hv & Hproto). unfold metaTagsCallback.
  rewrite Hkey, Hcontent. destruct k as [|c k]; [done|].
  destruct v as [|d v]; [done|]. cbn [JS.truthy andb].
  by destruct (String.eqb_spec (String c k) "__proto__").
Qed.

Lemma metaTagsCallback_cases m elem :
  (∃ k v, metaRecorded elem k v ∧ metaTagsCallback m elem = <[ k := v ]> m) ∨
  ((∀ k v, ¬ metaRecorded elem k v) ∧ metaTagsCallback m elem = m).
Proof.
  unfold metaTagsCallback, metaRecorded.
  destruct (metaKey elem) as [name|] eqn:Hkey;
    [|right; split; [intros k v (? & _); done | done]].
  destruct (attr "content" elem) as [content|] eqn:Hcontent;
    [|right; split; [intros k v (_ & ? & _); done | done]].
  destruct name as [|c name]; cbn [JS.truthy andb];
    [right; split; [intros k v (? & _ & ? & _); congruence | done]|].
  destruct content as [|d content]; cbn [JS.truthy andb];
    [right; split; [intros k v (_ & ? & _ & ? & _); congruence | done]|].
  destruct (String.eqb_spec (String c name) "__proto__") as [Heq|Hne].
  - right. split; [|done]. intros k v (? & _ & _ & _ & ?). congruence.
  - left. by exists (String c name), (String d content).
Qed.

(** Elements that are not recorded under [k] leave the entry of [k] alone. *)
Lemma each_meta_others sel m k :
  Forall (λ elem, ∀ v, ¬ metaRecorded elem k v) sel →
  each metaTagsCallback sel m !! k = m !! k.
Proof.
  unfold each. revert m.
  induction sel as [|elem sel IH]; intros m Hsel; [done|].
  apply Forall_cons in Hsel as [Helem Hsel]. cbn [foldl]. rewrite IH by done.
  destruct (metaTagsCallback_cases m elem) as [(k' & v & Hrec & ->)|[_ ->]];
    [|done].
  apply lookup_insert_ne. intros ->. by apply (Helem v).
Qed.

(** What is found under a key was there before or was recorded from an
    element. *)
Lemma each_meta_origin sel m k v :
  each metaTagsCallback sel m !! k = Some v →
  m !! k = Some v ∨ ∃ elem, elem ∈ sel ∧ metaRecorded elem k v.
Proof.
  unfold each. revert m.
  induction sel as [|elem sel IH]; intros m; [by left|]. cbn [foldl].
  intros [Hm|(e & Hin & Hrec)]%IH.
  - destruct (metaTagsCallback_cases m elem) as [(k' & v' & Hrec & Heq)|[_ Heq]];
      rewrite Heq in Hm; [|by left].
    destruct (decide (k' = k)) as [->|Hne].
    + rewrite lookup_insert_eq in Hm. simplify_eq. right.
      exists elem. split; [apply list_elem_of_here | done].
    + rewrite lookup_insert_ne in Hm by done. by left.
  - right. exists e. split; [by apply list_elem_of_further | done].
Qed.

(** X1. Under every key the object holds the content of the last meta
    element of the document that is recorded under that key, and nothing
    when no element is. *)
Theorem metaTags_last_wins (doc : document) (k : string) :
  (∀ before elem after v,
     select (Tag "meta") doc = before ++ elem :: after →
     metaRecorded elem k v →
     Forall (λ later, ∀ v', ¬ metaRecorded later k v') after →
     extractMetaTags doc !! k = Some v) ∧
  (Forall (λ elem, ∀ v, ¬ metaRecorded elem k v) (select (Tag "meta") doc) →
   extractMetaTags doc !! k = None).
Proof.
  unfold extractMetaTags. split.
  - intros before elem after v -> Hrec Hafter.
    unfold each. rewrite foldl_app. cbn [foldl].
    fold (each metaTagsCallback after
            (metaTagsCallback (foldl metaTagsCallback ∅ before) elem)).
    rewrite each_meta_others by done.
    rewrite (metaTagsCallback_recorded _ _ _ _ Hrec).
    apply lookup_insert_eq.
  - intros Hnone. by rewrite each_meta_others.
Qed.

(** X2. Every entry of the object comes from a meta element of the document
    that carries this key and this content; no entry has an empty key, an
    empty content or the key [__proto__]. *)
Theorem metaTags_entries_from_elements (doc : document) (k v : string) :
  extractMetaTags doc !! k = Some v →
  k ≠ "" ∧ v ≠ "" ∧ k ≠ "__proto__" ∧
  ∃ elem, elem ∈ select (Tag "meta") doc ∧
          metaKey elem = Some k ∧ attr "content" elem = Some v.
Proof.
  intros [Hempty|(elem & Hin & Hrec)]%each_meta_origin; [done|].
  destruct Hrec as (Hkey & Hcontent & Hk & Hv & Hproto).
  split_and!; try done. by exists elem.
Qed.

End MetaTags.

Example metaTags_repeatedMeta :
  extractMetaTags repeatedMeta = {[ "author" := "B"; "og:title" := "T" ]}.
Proof. by vm_compute. Qed.

Lemma metaTags_entries_from_elements_witness :
  extractMetaTags repeatedMeta !! "author" = Some "B" ∧
  "author" ≠ "" ∧ "B" ≠ "" ∧ "author" ≠ "__proto__" ∧
  ∃ elem, elem ∈ select (Tag "meta") repeatedMeta ∧
          metaKey elem = Some "author" ∧ attr "content" elem = Some "B".
Proof.
  split; [reflexivity|].
  apply (metaTags_entries_from_elements repeatedMeta "author" "B").
  reflexivity.
Defined.

(** ** [cleanText] as a normal form *)

Section CleanText.
Import JSFacts.

Lemma words_are_words s : Forall isWord (JS.words s).
Proof.
  induction s as [|c s IH]; [by apply Forall_nil|].
  destruct (JS.isWhiteSpace c) eqn:Hc.
  - by rewrite words_cons_space.
  - rewrite words_cons_letter by done.
    destruct IH as [|w ws [Hw Hfree] Hws].
    + apply Forall_singleton. split; [done|]. simpl. by rewrite Hc.
    + destruct (JS.startsWithWhiteSpace s).
      * apply Forall_cons_2; [|by apply Forall_cons_2].
        split; [done|]. simpl. by rewrite Hc.
      * apply Forall_cons_2; [|done]. split; [done|]. simpl.
        by rewrite Hc, Hfree.
Qed.

(** A word in front of white space, or of nothing, is the first word. *)
Lemma words_app_word w t :
  isWord w → t = "" ∨ JS.startsWithWhiteSpace t = true →
  JS.words (w +:+ t) = w :: JS.words t.
Proof.
  intros [Hne Hfree] Ht. induction w as [|c w IH]; [done|].
  simpl in Hfree. apply orb_false_iff in Hfree as [Hc Hfree].
  rewrite string_app_cons, words_cons_letter by done.
  destruct w as [|d w].
  - change ("" +:+ t) with t.
    destruct Ht as [->|Ht]; [done|]. rewrite Ht.
    by destruct (JS.words t).
  - rewrite IH by done. rewrite string_app_cons.
    simpl in Hfree. apply orb_false_iff in Hfree as [Hd _].
    cbn [JS.startsWithWhiteSpace]. by rewrite Hd.
Qed.

(** Joining words and splitting again gives the words back. *)
Lemma words_unwords l : Forall isWord l → JS.words (JS.unwords l) = l.
Proof.
  induction 1 as [|w l Hw Hl IH]; [done|].
  rewrite unwords_cons. destruct l as [|w' l].
  - rewrite <- (string_app_nil_r w) at 1. rewrite words_app_word by auto.
    done.
  - rewrite words_app_word by auto.
    rewrite words_cons_space by done. by rewrite IH.
Qed.

Lemma unwords_letter_space c w ws :
  JS.unwords (String c "" :: w :: ws)
  = String c (String " " (JS.unwords (w :: ws))).
Proof. reflexivity. Qed.

Lemma unwords_letter c w ws :
  JS.unwords (String c w :: ws) = String c (JS.unwords (w :: ws)).
Proof. rewrite !unwords_cons. by destruct ws. Qed.

Lemma length_unwords_words s :
  String.length (JS.unwords (JS.words s))
  + (if JS.startsWithWhiteSpace s then 1 else 0) ≤ String.length s.
Proof.
  induction s as [|c s IH]; [done|]. cbn [JS.startsWithWhiteSpace String.length].
  destruct (JS.isWhiteSpace c) eqn:Hc.
  - rewrite words_cons_space by done.
    destruct (JS.startsWithWhiteSpace s); lia.
  - rewrite words_cons_letter by done.
    destruct (JS.words s) as [|w ws] eqn:Hw; [simpl; lia|].
    destruct (JS.startsWithWhiteSpace s).
    + rewrite unwords_letter_space. cbn [String.length]. lia.
    + rewrite unwords_letter. cbn [String.length]. lia.
Qed.

(** X3. The cleaned text is the words of the text, its maximal runs of code
    units that are not white space, joined by single spaces; a text without
    a word cleans to the empty string. *)
Theorem cleanText_joins_words (s : string) :
  cleanText s = JS.unwords (JS.words s) ∧
  Forall isWord (JS.words s) ∧
  (cleanText s = "" ↔ JS.words s = []).
Proof.
  split_and!.
  - apply cleanText_words.
  - apply words_are_words.
  - apply cleanText_nil_words.
Qed.

(** X4. Cleaning a cleaned text changes nothing, cleaning never makes a text
    longer, and words joined by single spaces are left as they are. *)
Theorem cleanText_idempotent (s : string) :
  cleanText (cleanText s) = cleanText s ∧
  String.length (cleanText s) ≤ String.length s ∧
  (∀ l, Forall isWord l →
        JS.words (JS.unwords l) = l ∧ cleanText (JS.unwords l) = JS.unwords l).
Proof.
  split_and!.
  - rewrite !cleanText_words. by rewrite words_unwords by apply words_are_words.
  - rewrite cleanText_words. pose proof (length_unwords_words s). lia.
  - intros l Hl. rewrite cleanText_words, words_unwords by done. done.
Qed.

End CleanText.

(** ** Selections *)

Section Selections.

(** What a selector finds are elements that match it. *)
Lemma findAll_matches sel n el :
  el ∈ findAll sel n →
  ∃ name attribs children,
    el = Element name attribs children ∧ matches sel name attribs = true.
Proof.
  revert n el. fix IH 1. intros [data|name attribs children] el.
  - by intros ?%elem_of_nil.
  - cbn [findAll]. intros [Hin|Hin]%elem_of_app.
    + destruct (matches sel name attribs) eqn:Hm;
        [|by apply elem_of_nil in Hin].
      apply list_elem_of_singleton in Hin as ->. by eexists _, _, _.
    + induction children as [|c cs IHcs]; [by apply elem_of_nil in Hin|].
      apply elem_of_app in Hin as [Hin|Hin]; [by eapply IH | by apply IHcs].
Qed.

Lemma select_matches sel doc el :
  el ∈ select sel doc →
  ∃ name attribs children,
    el = Element name attribs children ∧ matches sel name attribs = true.
Proof.
  unfold select. rewrite list_elem_of_In, in_flat_map.
  intros (n & _ & Hin%list_elem_of_In). by eapply findAll_matches.
Qed.

(** X5. Every heading of the result carries the tag of its element as its
    level, one of h1 to h6, and a cleaned text of more than two code
    units. *)
Theorem headings_levels (doc : document) (h : heading) :
  h ∈ extractHeadings doc →
  heading_level h ∈ headingTags ∧ 2 < String.length (heading_text h) ∧
  ∃ el, el ∈ select (AnyTag headingTags) doc ∧
        heading_level h = tagName el ∧ heading_text h = cleanText (text el).
Proof.
  unfold extractHeadings. rewrite each_headings. simpl.
  intros Hin%subseteq_take.
  apply list_elem_of_filter in Hin as [Hlen Hin].
  apply list_elem_of_fmap in Hin as (el & -> & Hel).
  destruct (select_matches _ _ _ Hel) as (name & attribs & children & -> & Hm).
  assert (Hlevel : JS.toLowerCase name = name ∧ name ∈ headingTags).
  { unfold headingTags in Hm. cbn [matches existsb] in Hm.
    rewrite !orb_true_iff in Hm.
    destruct Hm as [Hm|[Hm|[Hm|[Hm|[Hm|[Hm|Hm]]]]]]; [..|done];
      apply String.eqb_eq in Hm as <-;
      (split; [reflexivity|]); unfold headingTags;
      repeat first [apply list_elem_of_here | apply list_elem_of_further]. }
  destruct Hlevel as [Hlower Hname]. cbn [headingEntry heading_level tagName].
  rewrite Hlower. split_and!; [done..|].
  exists (Element name attribs children). by rewrite <- Hlower at 2.
Qed.

End Selections.

Example headings_someHeadings :
  extractHeadings someHeadings
  = [{| heading_level := "h1"; heading_text := "Main title" |};
     {| heading_level := "h3"; heading_text := "Part one" |}].
Proof. reflexivity. Qed.

Lemma headings_levels_witness :
  {| heading_level := "h3"; heading_text := "Part one" |}
    ∈ extractHeadings someHeadings ∧
  "h3" ∈ headingTags ∧ 2 < String.length "Part one" ∧
  ∃ el, el ∈ select (AnyTag headingTags) someHeadings ∧
        "h3" = tagName el ∧ "Part one" = cleanText (text el).
Proof.
  assert (Hin : {| heading_level := "h3"; heading_text := "Part one" |}
                  ∈ extractHeadings someHeadings).
  { vm_compute. apply list_elem_of_further, list_elem_of_here. }
  split; [exact Hin|].
  exact (headings_levels someHeadings
           {| heading_level := "h3"; heading_text := "Part one" |} Hin).
Defined.

(** ** Scraping and the cache over many requests *)

Section Scraping.
Import JSMapFacts.

Variable new_URL : string -> option URL.
Variable new_URL_base : string -> string -> option URL.
Variable axios_get : string -> Response Data + Thrown.

Implicit Types (m : JSMap.t Result) (k : string) (data : Result).

Local Abbreviation build := (buildResult new_URL new_URL_base).
Local Abbreviation scrapePage := (scrapeWebpage new_URL new_URL_base axios_get).
Local Abbreviation scrapeFrom := (scrapeWebpage_from new_URL new_URL_base).
Local Abbreviation request := (postScrape new_URL new_URL_base axios_get).
Local Abbreviation held := (reachable new_URL new_URL_base).

(** The fields of a record that was built. *)
Lemma buildResult_fields url response result :
  build url response = Some result →
  ∃ u imgs lnks,
    new_URL url = Some u ∧
    extractImages new_URL new_URL_base (response_data response) (url_origin u)
      = Some imgs ∧
    extractLinks new_URL new_URL_base (response_data response) (url_origin u)
      = Some lnks ∧
    result =
      {| title := scrapeTitle (response_data response);
         description := scrapeDescription (response_data response);
         domain := url_hostname u;
         url := url;
         images := imgs;
         links := lnks;
         headings := extractHeadings (response_data response);
         paragraphs := extractParagraphs (response_data response);
         bodyText := scrapeBodyText (response_data response);
         responseStatus := response_status response;
         contentType := JS.orString (response_contentType response) "unknown" |}.
Proof.
  unfold buildResult.
  destruct (new_URL url) as [u|] eqn:Hu; simpl; [|done].
  destruct (extractImages _ _ _ _) as [imgs|] eqn:Himgs; simpl; [|done].
  destruct (extractLinks _ _ _ _) as [lnks|] eqn:Hlnks; simpl; [|done].
  intros [= <-]. by exists u, imgs, lnks.
Qed.

Lemma scrapeWebpage_from_url address answer result :
  scrapeFrom address answer = inl result → url result = address.
Proof.
  unfold scrapeWebpage_from.
  destruct answer as [response|error]; [|done].
  destruct (cheerio_load (response_data response)) as [doc|thrown]; [|done].
  destruct (build address (loaded doc response)) as [built|] eqn:Hbuilt;
    [|done].
  intros [= <-].
  by apply buildResult_fields in Hbuilt as (u & imgs & lnks & _ & _ & _ & ->).
Qed.

Lemma scrapeWebpage_url address result :
  scrapePage address = inl result → url result = address.
Proof. apply scrapeWebpage_from_url. Qed.

Lemma orString_not_empty a b : b ≠ "" → JS.orString a b ≠ "".
Proof. by destruct a as [[|c a]|]. Qed.



Lemma storeResult_size k data m :
  JSMap.size m ≤ 50 → JSMap.size (storeResult k data m) ≤ 50.
Proof.
  intros Hsize. destruct (JSMap.has k m) eqn:Hhas.
  - apply has_true in Hhas.
    rewrite storeResult_below; rewrite size_set_present by done; lia.
  - apply has_false in Hhas. rewrite storeResult_absent by done.
    destruct (Nat.ltb_spec 50 (S (JSMap.size m))) as [Hfull|Hroom].
    + destruct m as [|entry rest]; [simpl in *; lia|]. simpl.
      unfold JSMap.size in *. rewrite length_app. simpl in *. lia.
    + unfold JSMap.size in *. rewrite length_app. simpl. lia.
Qed.

(** The size of a map the server can hold. *)
Lemma held_size m : held m → JSMap.size m ≤ 50.
Proof.
  apply (reachable_induction new_URL new_URL_base
           (λ m, JSMap.size m ≤ 50)); [simpl; lia|].
  intros k answer data m' _ _ Hsize. by apply storeResult_size.
Qed.

(** X7. Whatever requests came before, the map holds at most 50 records,
    under keys that are distinct, and [/results] lists at most 50. *)
Theorem cache_never_exceeds_capacity m :
  held m →
  JSMap.size m ≤ 50 ∧ JSMap.wf m ∧ length (getResults m) ≤ 50.
Proof.
  intros Hheld. split_and!; [by apply held_size| |].
  - by apply (reachable_inv new_URL new_URL_base).
  - unfold getResults, JSMap.values. rewrite length_fmap. by apply held_size.
Qed.

Lemma get_app_Some k r m1 m2 :
  JSMap.get k (m1 ++ m2) = Some r →
  JSMap.get k m1 = Some r ∨
  ((k ∉ JSMap.keys m1) ∧ JSMap.get k m2 = Some r).
Proof.
  destruct (decide (k ∈ JSMap.keys m1)) as [Hin|Hout].
  - rewrite get_app_l by done. by left.
  - rewrite get_app_r by done. by right.
Qed.

Lemma storeResult_get_Some k k' r data m :
  JSMap.wf m → JSMap.size m ≤ 50 →
  JSMap.get k' (storeResult k data m) = Some r →
  (k' = k ∧ r = data) ∨ JSMap.get k' m = Some r.
Proof.
  intros Hwf Hsize.
  destruct (decide (k ∈ JSMap.keys m)) as [Hin|Hnew].
  { rewrite storeResult_below by (rewrite size_set_present by done; lia).
    destruct (decide (k' = k)) as [->|Hne].
    - rewrite get_set_eq. intros [= <-]. by left.
    - rewrite get_set_ne by done. by right. }
  assert (Hlast : ∀ r', JSMap.get k' [(k, data)] = Some r' → k' = k ∧ r' = data).
  { intros r'. simpl. destruct (String.eqb_spec k' k); [|done].
    by intros [= <-]. }
  destruct (storeResult_shape k data m Hnew) as [->|(o & v & rest & -> & ->)];
    intros [Hold|[Hout Hthis%Hlast]]%get_app_Some; auto.
  right. unfold JSMap.wf, JSMap.keys in Hwf. rewrite fmap_cons in Hwf.
  apply NoDup_cons in Hwf as [Hhead _]. cbn [JSMap.get].
  destruct (String.eqb_spec k' o) as [->|_]; [|done].
  exfalso. apply Hhead. change (o ∈ JSMap.keys rest).
  apply has_true. unfold JSMap.has. by rewrite Hold.
Qed.

(** The address of a record the map holds. *)
Lemma held_url m k r : held m → JSMap.get k m = Some r → url r = k.
Proof.
  intros Hheld. revert k r.
  cut (cacheInv new_URL m ∧ JSMap.size m ≤ 50 ∧
       ∀ k r, JSMap.get k m = Some r → url r = k); [by intros (_ & _ & ?)|].
  revert m Hheld.
  apply (reachable_induction new_URL new_URL_base
           (λ m, cacheInv new_URL m ∧ JSMap.size m ≤ 50 ∧
                 ∀ k r, JSMap.get k m = Some r → url r = k)).
  - split_and!; [|simpl; lia|done].
    split; [apply NoDup_nil_2 | apply Forall_nil_2].
  - intros k' answer data m Hk' Hok (Hinv & Hsize & IH). split_and!.
    + by apply storeResult_inv.
    + by apply storeResult_size.
    + destruct Hinv as [Hwf _].
      intros k r [[-> ->]|Hold]%storeResult_get_Some; [| |done|done].
      * by eapply scrapeWebpage_from_url.
      * by apply IH.
Qed.

(** X8. Every record the map holds is stored under the address it was
    scraped from. *)
Theorem cached_under_own_address m k r :
  held m → JSMap.get k m = Some r → url r = k.
Proof. apply held_url. Qed.

(** X9. A request that was answered with a record is answered with the same
    record when it is made again, from the map and without a change to
    it. *)
Theorem repeated_request_is_served_from_cache (address : option string) m data :
  (postScrape new_URL new_URL_base axios_get address m).1 = Scraped data →
  postScrape new_URL new_URL_base axios_get address (request address m).2
  = (Scraped data, (request address m).2).
Proof.
  unfold postScrape, postScrape_arrive, postScrape_resume.
  destruct address as [[|c u]|]; [done| |done].
  destruct (new_URL (String c u)) as [parsed|] eqn:Hparsed; [|done].
  destruct (JSMap.get (String c u) m) as [cached|] eqn:Hget.
  - simpl. intros [= ->]. by rewrite Hget.
  - destruct (scrapePage (String c u)) as [scraped|failure]; [|done].
    simpl. intros [= ->]. by rewrite storeResult_get_new.
Qed.

(** X10. With fewer than 50 records held, storing the record of a new
    address pushes nothing out: the record goes to the end of what
    [/results] lists and every other address keeps its record. *)
Theorem storeResult_below_capacity (address : string) data m :
  JSMap.has address m = false → JSMap.size m < 50 →
  storeResult address data m = m ++ [(address, data)] ∧
  getResults (storeResult address data m) = getResults m ++ [data] ∧
  JSMap.get address (storeResult address data m) = Some data ∧
  (∀ k, k ≠ address →
        JSMap.get k (storeResult address data m) = JSMap.get k m).
Proof.
  intros Hnew%has_false Hroom.
  assert (Hstore : storeResult address data m = m ++ [(address, data)]).
  { rewrite storeResult_absent by done.
    destruct (Nat.ltb_spec 50 (S (JSMap.size m))); [lia|done]. }
  rewrite Hstore. split_and!; [done| | |].
  - unfold getResults, JSMap.values. by rewrite fmap_app.
  - rewrite get_app_r by done. simpl. by rewrite String.eqb_refl.
  - intros k Hne. destruct (decide (k ∈ JSMap.keys m)) as [Hin|Hout].
    + by rewrite get_app_l.
    + rewrite get_app_r by done. simpl.
      rewrite eqb_decide, bool_decide_eq_false_2 by done.
      symmetry. by apply get_None.
Qed.

End Scraping.

Example scrapeWebpage_exampleSite :
  scrapeWebpage SimpleURL.new_URL SimpleURL.new_URL_base exampleSite
    "http://y.com" = inl scrapedFromExample ∧
  scrapeWebpage SimpleURL.new_URL SimpleURL.new_URL_base exampleSite
    "http://z.com" = inr ConnectionRefused.
Proof. split; reflexivity. Qed.

(** A body that is the JSON text [null]: [cheerio.load] throws, and the
    scrape fails with its message. *)
Example scrapeWebpage_null_body :
  scrapeWebpage_from SimpleURL.new_URL SimpleURL.new_URL_base "http://y.com"
    nullAnswer
  = inr (FailedToScrape "cheerio.load() expects a string").
Proof. reflexivity. Qed.

Lemma afterFirstRequest_held :
  reachable SimpleURL.new_URL SimpleURL.new_URL_base afterFirstRequest.
Proof.
  exists [PostScrape (Some "http://y.com");
          Settles 0 (exampleSite "http://y.com")].
  reflexivity.
Defined.

Lemma cache_never_exceeds_capacity_witness :
  reachable SimpleURL.new_URL SimpleURL.new_URL_base afterFirstRequest ∧
  JSMap.size afterFirstRequest ≤ 50 ∧ JSMap.wf afterFirstRequest ∧
  length (getResults afterFirstRequest) ≤ 50.
Proof.
  split; [exact afterFirstRequest_held|].
  exact (cache_never_exceeds_capacity SimpleURL.new_URL SimpleURL.new_URL_base
           afterFirstRequest afterFirstRequest_held).
Defined.

Lemma cached_under_own_address_witness :
  reachable SimpleURL.new_URL SimpleURL.new_URL_base afterFirstRequest ∧
  JSMap.get "http://y.com" afterFirstRequest = Some scrapedFromExample ∧
  url scrapedFromExample = "http://y.com".
Proof.
  split; [exact afterFirstRequest_held|]. split; [reflexivity|].
  apply (cached_under_own_address SimpleURL.new_URL SimpleURL.new_URL_base
           afterFirstRequest);
    [exact afterFirstRequest_held | reflexivity].
Defined.

Lemma repeated_request_is_served_from_cache_witness :
  (postScrape SimpleURL.new_URL SimpleURL.new_URL_base exampleSite
     (Some "http://y.com") oneEntryCache).1 = Scraped scrapedFromExample ∧
  postScrape SimpleURL.new_URL SimpleURL.new_URL_base exampleSite
    (Some "http://y.com")
    (postScrape SimpleURL.new_URL SimpleURL.new_URL_base exampleSite
       (Some "http://y.com") oneEntryCache).2
  = (Scraped scrapedFromExample,
     (postScrape SimpleURL.new_URL SimpleURL.new_URL_base exampleSite
        (Some "http://y.com") oneEntryCache).2).
Proof.
  split; [reflexivity|].
  apply (repeated_request_is_served_from_cache SimpleURL.new_URL
           SimpleURL.new_URL_base exampleSite (Some "http://y.com")
           oneEntryCache scrapedFromExample).
  reflexivity.
Defined.

Lemma storeResult_below_capacity_witness :
  JSMap.has "http://y.com" oneEntryCache = false ∧
  JSMap.size oneEntryCache < 50 ∧
  storeResult "http://y.com" scrapedFromExample oneEntryCache
    = oneEntryCache ++ [("http://y.com", scrapedFromExample)] ∧
  getResults (storeResult "http://y.com" scrapedFromExample oneEntryCache)
    = getResults oneEntryCache ++ [scrapedFromExample] ∧
  JSMap.get "http://y.com"
    (storeResult "http://y.com" scrapedFromExample oneEntryCache)
    = Some scrapedFromExample ∧
  (∀ k, k ≠ "http://y.com" →
        JSMap.get k (storeResult "http://y.com" scrapedFromExample oneEntryCache)
        = JSMap.get k oneEntryCache).
Proof.
  split; [reflexivity|]. split; [vm_compute; lia|].
  apply (storeResult_below_capacity "http://y.com" scrapedFromExample
           oneEntryCache); [reflexivity | vm_compute; lia].
Defined.

(** ** Addresses written in full are met only once *)

Section Deduplication.

Variable new_URL : string -> option URL.
Variable new_URL_base : string -> string -> option URL.

Lemma startsWith_http_no_slash raw :
  JS.startsWith "http" raw = true → JS.startsWith "/" raw = false.
Proof.
  destruct raw as [|c raw]; [done|]. unfold JS.startsWith. cbn [String.prefix].
  destruct (ascii_dec "h" c) as [Heq|]; [subst c|done]. by intros _.
Qed.

Lemma imagesCallback_noted base st img st' :
  (∀ raw, imageSrcAttr img = Some raw → JS.startsWith "http" raw = true) →
  imagesNoted st →
  imagesCallback new_URL new_URL_base base st img = Some st' →
  imagesNoted st'.
Proof.
  intros Habs [Hnodup Hseen]. destruct st as [images seen].
  unfold imagesCallback.
  destruct (imageSrcAttr img) as [raw|] eqn:Hsrc; [|by intros [= <-]].
  specialize (Habs raw eq_refl).
  unfold resolveImageSrc.
  rewrite (startsWith_http_no_slash raw Habs), Habs. cbn [negb].
  destruct (JS.truthy raw); cbn [andb]; [|by intros [= <-]].
  case_bool_decide as Hfresh; cbn [negb]; [by intros [= <-]|].
  destruct (imageWanted raw (imageAltAttr img)); [|by intros [= <-]].
  intros [= <-]. unfold imagesNoted. cbn [fst snd] in *.
  rewrite fmap_app. cbn [fmap list_fmap img_src]. split.
  - apply NoDup_app. split_and!; [done| |apply NoDup_singleton].
    intros s Hs ->%list_elem_of_singleton. by apply Hfresh, Hseen.
  - intros s [Hs | ->%list_elem_of_singleton]%elem_of_app.
    + apply elem_of_union_l. by apply Hseen.
    + apply elem_of_union_r. by apply elem_of_singleton.
Qed.

Lemma linksCallback_noted base st a st' :
  (∀ raw, attr "href" a = Some raw →
          JS.startsWith "http" raw = true) →
  linksNoted st →
  linksCallback new_URL new_URL_base base st a = Some st' →
  linksNoted st'.
Proof.
  intros Habs [Hnodup Hseen]. destruct st as [links seen].
  unfold linksCallback.
  destruct (attr "href" a) as [raw|] eqn:Hhref; [|by intros [= <-]].
  specialize (Habs raw eq_refl).
  unfold resolveLinkHref.
  rewrite (startsWith_http_no_slash raw Habs), Habs. cbn [negb andb].
  destruct (JS.truthy raw); cbn [andb]; [|by intros [= <-]].
  destruct (JS.truthy (cleanText (text a))); cbn [andb]; [|by intros [= <-]].
  case_bool_decide as Hfresh; cbn [negb]; [by intros [= <-]|].
  destruct (linkTextWanted (cleanText (text a))); [|by intros [= <-]].
  intros [= <-]. unfold linksNoted. cbn [fst snd] in *.
  rewrite fmap_app. cbn [fmap list_fmap link_href]. split.
  - apply NoDup_app. split_and!; [done| |apply NoDup_singleton].
    intros s Hs ->%list_elem_of_singleton. by apply Hfresh, Hseen.
  - intros s [Hs | ->%list_elem_of_singleton]%elem_of_app.
    + apply elem_of_union_l. by apply Hseen.
    + apply elem_of_union_r. by apply elem_of_singleton.
Qed.

Lemma eachOrThrow_invariant {S} (P : S → Prop) (Q : node → Prop)
    (cb : S → node → option S) sel st st' :
  (∀ st el st', Q el → P st → cb st el = Some st' → P st') →
  Forall Q sel → P st → eachOrThrow cb sel st = Some st' → P st'.
Proof.
  intros Hstep Hsel. revert st.
  induction Hsel as [|el sel Hel _ IH]; intros st Hst; [by intros [= <-]|].
  rewrite eachOrThrow_cons. destruct (cb st el) as [st1|] eqn:Hcb; [|done].
  apply IH. by eapply Hstep.
Qed.

(** X11. In a document whose image sources all begin with [http], no two
    images of the result have the same source; likewise for the addresses
    of the links when every [href] begins with [http]. *)
Theorem absolute_addresses_met_once (doc : document) (baseUrl : string) :
  (∀ imgs,
     Forall (λ img, ∀ raw, imageSrcAttr img = Some raw →
                           JS.startsWith "http" raw = true)
            (select (Tag "img") doc) →
     extractImages new_URL new_URL_base doc baseUrl = Some imgs →
     NoDup (img_src <$> imgs)) ∧
  (∀ lnks,
     Forall (λ a, ∀ raw, attr "href" a = Some raw →
                         JS.startsWith "http" raw = true)
            (select (TagWithAttr "a" "href") doc) →
     extractLinks new_URL new_URL_base doc baseUrl = Some lnks →
     NoDup (link_href <$> lnks)).
Proof.
  split.
  - intros imgs Habs. unfold extractImages, imagesLoop.
    destruct (eachOrThrow _ _ _) as [st|] eqn:Hloop; [|done].
    intros [= <-].
    assert (Hnoted : imagesNoted st).
    { eapply (eachOrThrow_invariant imagesNoted); [|exact Habs| |exact Hloop].
      - intros st0 el st1 Hel. by apply imagesCallback_noted.
      - split; [apply NoDup_nil_2 | by intros s ?%elem_of_nil]. }
    destruct Hnoted as [Hnodup _]. rewrite fmap_take.
    eapply sublist_NoDup; [done | apply sublist_take].
  - intros lnks Habs. unfold extractLinks, linksLoop.
    destruct (eachOrThrow _ _ _) as [st|] eqn:Hloop; [|done].
    intros [= <-].
    assert (Hnoted : linksNoted st).
    { eapply (eachOrThrow_invariant linksNoted); [|exact Habs| |exact Hloop].
      - intros st0 el st1 Hel. by apply linksCallback_noted.
      - split; [apply NoDup_nil_2 | by intros s ?%elem_of_nil]. }
    destruct Hnoted as [Hnodup _]. rewrite fmap_take.
    eapply sublist_NoDup; [done | apply sublist_take].
Qed.

End Deduplication.

(** ** The page after a submission *)

Section Submission.

Variable new_URL : string -> option URL.
Variable new_URL_base : string -> string -> option URL.
Variable axios_get : string -> Response Data + Thrown.

Implicit Types (page : Page) (input : string) (m : JSMap.t Result).

Local Abbreviation served := (postScrape new_URL new_URL_base axios_get).

(** The request of the page against the route, for the map the server holds
    when it arrives. *)
Local Abbreviation fetchFrom m :=
  (fun address => answerOf (served (Some address) m).1).

Lemma truthy_false s : JS.truthy s = false ↔ s = "".
Proof. by destruct s. Qed.

(** The fields of a page that was written by the functions above. *)
Ltac page_fields :=
  cbn [setLoading showError showSuccess hideMessages displayWebpageDetails
       errorText errorHidden successText successHidden buttonDisabled
       buttonTextHidden loaderHidden buttonLoading currentScrapedData
       detailsShown negb].

(** The two ways out of [handleSubmit]. *)
Lemma handleSubmit_blank fetchScrape input page :
  JS.trim input = "" →
  handleSubmit fetchScrape input page
  = showError "Please enter a valid URL" page.
Proof. intros Hblank. unfold handleSubmit. by rewrite Hblank. Qed.

Lemma handleSubmit_sent fetchScrape input page :
  JS.trim input ≠ "" →
  (∃ data, fetchScrape (JS.trim input) = Delivered data ∧
     handleSubmit fetchScrape input page
     = setLoading false
         (showSuccess "Webpage analysis completed successfully!"
            (displayWebpageDetails data
               (hideMessages (setLoading true page))))) ∨
  (∃ message, message ≠ "" ∧
     ((∃ thrown, fetchScrape (JS.trim input) = NoAnswer thrown ∧
         message = JS.orString (Some thrown) "Failed to analyze webpage") ∨
      (∃ error, fetchScrape (JS.trim input) = Refused error ∧
         message = JS.orString error "Failed to scrape webpage")) ∧
     handleSubmit fetchScrape input page
     = setLoading false
         (showError message (hideMessages (setLoading true page)))).
Proof.
  intros Hsent. unfold handleSubmit.
  destruct (JS.trim input) as [|c address] eqn:Htrim; [done|].
  cbn [JS.truthy negb].
  destruct (fetchScrape (String c address)) as [thrown|error|data] eqn:Hfetch.
  - right. exists (JS.orString (Some thrown) "Failed to analyze webpage").
    split_and!; [by apply orString_not_empty| |done].
    left. by exists thrown.
  - right. exists (JS.orString error "Failed to scrape webpage").
    split_and!; [by apply orString_not_empty| |].
    + right. by exists error.
    + by destruct error as [[|c' error]|].
  - left. by exists data.
Qed.

(** X12. Whatever the request comes to, [handleSubmit] leaves exactly one of
    the two messages visible, with a text that is not empty; the success
    message is the visible one exactly when the field held more than white
    space and the request delivered a record.  Once a request was made the
    button is enabled again, its text is back and the loader is hidden. *)
Theorem handleSubmit_leaves_one_message
    (fetchScrape : string → Answer) input page :
  errorHidden (handleSubmit fetchScrape input page)
  = negb (successHidden (handleSubmit fetchScrape input page)) ∧
  (successHidden (handleSubmit fetchScrape input page) = false ↔
   JS.trim input ≠ "" ∧ ∃ data, fetchScrape (JS.trim input) = Delivered data) ∧
  (successHidden (handleSubmit fetchScrape input page) = false →
   successText (handleSubmit fetchScrape input page) ≠ "") ∧
  (errorHidden (handleSubmit fetchScrape input page) = false →
   errorText (handleSubmit fetchScrape input page) ≠ "") ∧
  (JS.trim input ≠ "" →
   buttonDisabled (handleSubmit fetchScrape input page) = false ∧
   buttonTextHidden (handleSubmit fetchScrape input page) = false ∧
   loaderHidden (handleSubmit fetchScrape input page) = true ∧
   buttonLoading (handleSubmit fetchScrape input page) = false).
Proof.
  destruct (decide (JS.trim input = "")) as [Hblank|Hsent].
  - rewrite (handleSubmit_blank _ _ _ Hblank). page_fields.
    split_and!; try done. by split; [|intros [? _]].
  - destruct (handleSubmit_sent fetchScrape input page Hsent)
      as [(data & Hfetch & ->)|(message & Hne & Hwhy & ->)]; page_fields.
    + split_and!; try done. split; [|done]. intros _. split; [done|].
      by exists data.
    + split_and!; try done. split; [done|].
      intros [_ [data Hfetch]].
      destruct Hwhy as [(thrown & Hwhy & _)|(error & Hwhy & _)]; congruence.
Qed.

(** X13. A submission that delivers no record shows the error message and
    leaves the details on display, and the record kept for the download, as
    they were: the result of an earlier submission stays under the error
    message. *)
Theorem failed_submission_keeps_details
    (fetchScrape : string → Answer) input page :
  (JS.trim input = "" ∨ ∀ data, fetchScrape (JS.trim input) ≠ Delivered data) →
  errorHidden (handleSubmit fetchScrape input page) = false ∧
  detailsShown (handleSubmit fetchScrape input page) = detailsShown page ∧
  currentScrapedData (handleSubmit fetchScrape input page)
  = currentScrapedData page.
Proof.
  intros Hfailed.
  destruct (decide (JS.trim input = "")) as [Hblank|Hsent].
  - by rewrite (handleSubmit_blank _ _ _ Hblank).
  - destruct Hfailed as [|Hfailed]; [done|].
    destruct (handleSubmit_sent fetchScrape input page Hsent)
      as [(data & Hfetch & _)|(message & _ & _ & ->)]; [|done].
    by destruct (Hfailed data).
Qed.

(** The replies of the route, as the page reads them. *)
Lemma answerOf_served address m :
  address ≠ "" →
  (∃ data, answerOf (served (Some address) m).1 = Delivered data ∧
           JSMap.get address (served (Some address) m).2 = Some data) ∨
  answerOf (served (Some address) m).1 = Refused (Some "Invalid URL format") ∨
  answerOf (served (Some address) m).1
  = Refused (Some "Failed to scrape webpage").
Proof.
  intros Hne. destruct address as [|c address]; [done|].
  unfold postScrape, postScrape_arrive, postScrape_resume.
  destruct (new_URL (String c address)); [|by right; left].
  destruct (JSMap.get (String c address) m) as [cached|] eqn:Hget.
  { left. by exists cached. }
  destruct (scrapeWebpage _ _ _ _) as [scrapedData|error]; [|by right; right].
  left. exists scrapedData. split; [done|].
  cbn [snd]. by apply storeResult_get_new.
Qed.

(** X14. The page against the route.  The error message the page shows is
    its own "Please enter a valid URL" or one of the two texts "Invalid URL
    format" and "Failed to scrape webpage" of the route: the route's "URL is
    required" and the reason a scrape failed for are never shown.  When the
    success message shows, the record on display is the one the server then
    holds under the trimmed text of the field. *)
Theorem page_shows_what_the_route_answers m input page :
  (errorHidden (handleSubmit (fetchFrom m) input page) = false →
   errorText (handleSubmit (fetchFrom m) input page)
   ∈ ["Please enter a valid URL"; "Invalid URL format";
      "Failed to scrape webpage"]) ∧
  (successHidden (handleSubmit (fetchFrom m) input page) = false →
   ∃ data,
     detailsShown (handleSubmit (fetchFrom m) input page) = Some data ∧
     currentScrapedData (handleSubmit (fetchFrom m) input page) = Some data ∧
     JSMap.get (JS.trim input) (served (Some (JS.trim input)) m).2
     = Some data).
Proof.
  destruct (decide (JS.trim input = "")) as [Hblank|Hsent].
  { rewrite (handleSubmit_blank _ _ _ Hblank). page_fields.
    split; [|done]. intros _. apply list_elem_of_here. }
  pose proof (answerOf_served (JS.trim input) m Hsent) as Hserved.
  destruct (handleSubmit_sent (fetchFrom m) input page Hsent)
    as [(data & Hfetch & ->)|(message & Hne & Hwhy & ->)]; page_fields;
    cbn beta in *.
  - split; [done|]. intros _. exists data. split_and!; try done.
    destruct Hserved as [(data' & Hdata & Hget)|[Hbad|Hbad]]; congruence.
  - split; [|done]. intros _.
    destruct Hwhy as [(thrown & Hwhy & _)|(error & Hwhy & ->)].
    { destruct Hserved as [(data' & Hdata & _)|[Hbad|Hbad]]; congruence. }
    destruct Hserved as [(data' & Hdata & _)|[Hbad|Hbad]]; [congruence| |].
    all: rewrite Hbad in Hwhy; injection Hwhy as <-; cbn [JS.orString].
    all: repeat first [apply list_elem_of_here | apply list_elem_of_further].
Qed.

End Submission.

(** A second submission, for a text that is no address: the record of the
    first stays on display under the message of the route. *)
Example submission_of_no_address :
  let after := handleSubmit fetchExample "  nowhere " pageWithDetails in
  errorHidden after = false ∧ errorText after = "Invalid URL format" ∧
  successHidden after = true ∧
  detailsShown after = Some scrapedFromExample ∧
  buttonDisabled after = false ∧ loaderHidden after = true.
Proof. by vm_compute. Qed.

Lemma failed_submission_keeps_details_witness :
  (JS.trim "  nowhere " = "" ∨
   ∀ data, fetchExample (JS.trim "  nowhere ") ≠ Delivered data) ∧
  errorHidden (handleSubmit fetchExample "  nowhere " pageWithDetails) = false ∧
  detailsShown (handleSubmit fetchExample "  nowhere " pageWithDetails)
  = detailsShown pageWithDetails ∧
  currentScrapedData (handleSubmit fetchExample "  nowhere " pageWithDetails)
  = currentScrapedData pageWithDetails.
Proof.
  split; [right; intros data; vm_compute; discriminate|].
  apply (failed_submission_keeps_details fetchExample "  nowhere "
           pageWithDetails).
  right; intros data; vm_compute; discriminate.
Defined.

(** ** The history panel after a request *)

Section History.
Import JSMapFacts.

Variable new_URL : string -> option URL.
Variable new_URL_base : string -> string -> option URL.
Variable axios_get : string -> Response Data + Thrown.

Implicit Types (panel : HistoryPanel) (m : JSMap.t Result) (k : string).

Local Abbreviation answered := (postScrape new_URL new_URL_base axios_get).
Local Abbreviation kept := (reachable new_URL new_URL_base).

(** [loadHistory] on an array that is not empty. *)
Lemma loadHistory_cons first others panel :
  loadHistory (Some (first :: others)) panel
  = {| totalScrapes := S (length others);
       historyContainer :=
         match others with
         | [] => NoPreviousAnalyses
         | _ => HistoryItems others
         end;
       historySectionHidden := false |}.
Proof. by destruct others. Qed.

(** A value of a map is the value of one of its keys. *)
Lemma values_get m r :
  JSMap.wf m → r ∈ JSMap.values m → ∃ k, JSMap.get k m = Some r.
Proof.
  unfold JSMap.wf, JSMap.keys, JSMap.values.
  induction m as [|[k v] m IH]; [by intros _ ?%elem_of_nil|].
  rewrite !fmap_cons. cbn [fst snd].
  intros [Hhead Hwf]%NoDup_cons [->|Hin]%elem_of_cons.
  - exists k. cbn [JSMap.get]. by rewrite String.eqb_refl.
  - destruct (IH Hwf Hin) as [k' Hget]. exists k'. cbn [JSMap.get].
    destruct (String.eqb_spec k' k) as [->|_]; [|done].
    exfalso. apply Hhead. change (k ∈ JSMap.keys m).
    apply has_true. unfold JSMap.has. by rewrite Hget.
Qed.

(** X15. The history the page loads from a map of the server counts every
    record of the map, and shows all of them but the oldest, oldest first:
    nothing but the empty state "No previous analyses" for a map of one
    record, at most forty-nine records otherwise, the oldest never among
    them.  For an empty map the section is hidden and its content is left
    as it was. *)
Theorem history_leaves_out_the_oldest m panel :
  kept m →
  totalScrapes (loadHistory (Some (getResults m)) panel) = JSMap.size m ∧
  (m = [] →
   historySectionHidden (loadHistory (Some (getResults m)) panel) = true ∧
   historyContainer (loadHistory (Some (getResults m)) panel)
   = historyContainer panel) ∧
  (∀ k r, m = [(k, r)] →
   historySectionHidden (loadHistory (Some (getResults m)) panel) = false ∧
   historyContainer (loadHistory (Some (getResults m)) panel)
   = NoPreviousAnalyses) ∧
  (∀ k r next rest, m = (k, r) :: next :: rest →
   historySectionHidden (loadHistory (Some (getResults m)) panel) = false ∧
   historyContainer (loadHistory (Some (getResults m)) panel)
   = HistoryItems (getResults (next :: rest)) ∧
   (r ∉ getResults (next :: rest)) ∧
   length (getResults (next :: rest)) < 50).
Proof.
  intros Hkept.
  pose proof (held_size _ _ _ Hkept) as Hsize.
  pose proof (reachable_inv _ _ _ Hkept) as [Hwf _].
  split_and!.
  - destruct m as [|[k r] rest]; [done|].
    unfold getResults, JSMap.values. rewrite fmap_cons, loadHistory_cons.
    cbn [totalScrapes JSMap.size length]. by rewrite length_fmap.
  - by intros ->.
  - by intros k r ->.
  - intros k r next rest ->.
    unfold getResults, JSMap.values in *. rewrite !fmap_cons, loadHistory_cons.
    cbn [historySectionHidden historyContainer].
    split_and!; [done|done| |].
    + intros Hin.
      destruct (values_get (next :: rest) r) as [k' Hget].
      { unfold JSMap.wf, JSMap.keys in *. rewrite fmap_cons in Hwf.
        by apply NoDup_cons in Hwf as [_ Hwf]. }
      { unfold JSMap.values. by rewrite fmap_cons. }
      assert (Hk' : k' ∈ JSMap.keys (next :: rest)).
      { apply has_true. unfold JSMap.has. by rewrite Hget. }
      assert (Hne : k' ≠ k).
      { intros ->. unfold JSMap.wf, JSMap.keys in *. rewrite fmap_cons in Hwf.
        by apply NoDup_cons in Hwf as [Hhead _]. }
      apply Hne.
      rewrite <- (held_url _ _ _ k' r Hkept), <- (held_url _ _ _ k r Hkept).
      * done.
      * cbn [JSMap.get]. by rewrite String.eqb_refl.
      * cbn [JSMap.get]. by destruct (String.eqb_spec k' k).
    + unfold JSMap.size in Hsize. cbn [length] in *.
      rewrite length_fmap. lia.
Qed.


End History.

(** The history after [http://y.com] was scraped by a server that held
    [http://x.com]: the record of [http://x.com] is missing, the one on
    display is the only item. *)
Example history_after_second_request :
  loadHistory
    (Some (getResults
             (postScrape SimpleURL.new_URL SimpleURL.new_URL_base exampleSite
                (Some "http://y.com") oneEntryCache).2))
    hiddenPanel
  = {| totalScrapes := 2; historyContainer := HistoryItems [scrapedFromExample];
       historySectionHidden := false |}.
Proof. reflexivity. Qed.

Lemma history_leaves_out_the_oldest_witness :
  reachable SimpleURL.new_URL SimpleURL.new_URL_base afterFirstRequest ∧
  totalScrapes (loadHistory (Some (getResults afterFirstRequest)) hiddenPanel)
  = 1 ∧
  historyContainer
    (loadHistory (Some (getResults afterFirstRequest)) hiddenPanel)
  = NoPreviousAnalyses.
Proof.
  split; [exact afterFirstRequest_held|].
  destruct (history_leaves_out_the_oldest SimpleURL.new_URL
              SimpleURL.new_URL_base afterFirstRequest hiddenPanel
              afterFirstRequest_held) as (Htotal & _ & Hone & _).
  split; [exact Htotal|].
  exact (proj2 (Hone "http://y.com" scrapedFromExample eq_refl)).
Defined.


(** ** The body text on the page and in the PDF *)

Section Previews.
Import JSFacts.

Variable new_URL : string -> option URL.
Variable new_URL_base : string -> string -> option URL.

Lemma substring0_all n s : String.length s ≤ n → JS.substring0 n s = s.
Proof.
  unfold JS.substring0. revert s.
  induction n as [|n IH]; intros [|c s]; simpl; try done; [lia|].
  intros Hlen. rewrite IH; [done|lia].
Qed.

Lemma length_substring0_min n s :
  String.length (JS.substring0 n s) = n `min` String.length s.
Proof.
  unfold JS.substring0. revert s.
  induction n as [|n IH]; intros [|c s]; simpl; try done.
  by rewrite IH.
Qed.

(** X17. The body text of a record the server built has at most 1000
    characters, so [downloadPDF] never cuts it and never adds its dots: the
    PDF shows the body text as it is, or no preview when it is empty.  The
    page adds its dots exactly when the cleaned text of the body had 1000
    characters or more, also when it had exactly 1000 and nothing was
    cut. *)
Theorem body_text_previews (address : string)
    (response : Response document) (result : Result) :
  buildResult new_URL new_URL_base address response = Some result →
  String.length (bodyText result) ≤ 1000 ∧
  pdfContentPreview (bodyText result)
  = (if decide (bodyText result = "") then None else Some (bodyText result)) ∧
  (previewMark (bodyText result) = "..." ↔
   1000 ≤ String.length
            (cleanText (textOf (select (Tag "body") (response_data response))))).
Proof.
  intros (u & imgs & lnks & _ & _ & _ & ->)%buildResult_fields.
  cbn [bodyText]. unfold scrapeBodyText.
  set (body := cleanText (textOf (select (Tag "body") (response_data response)))).
  pose proof (length_substring0 1000 body) as Hcap.
  split_and!; [done| |].
  - unfold pdfContentPreview.
    destruct (JS.substring0 1000 body) as [|c cut] eqn:Hcut.
    { by rewrite decide_True. }
    rewrite decide_False by done. cbn [JS.truthy].
    rewrite substring0_all by lia.
    destruct (Nat.ltb_spec 1500 (String.length (String c cut))); [lia|].
    by rewrite string_app_nil_r.
  - unfold previewMark. rewrite length_substring0_min.
    destruct (Nat.leb_spec 1000 (1000 `min` String.length body));
      split; try done; lia.
Qed.

End Previews.

Lemma body_text_previews_witness :
  buildResult SimpleURL.new_URL SimpleURL.new_URL_base "http://x.com"
    greetingResponse = Some greetingResult ∧
  String.length (bodyText greetingResult) ≤ 1000 ∧
  pdfContentPreview (bodyText greetingResult) = Some "Hello there" ∧
  previewMark (bodyText greetingResult) = "".
Proof.
  split; [reflexivity|].
  destruct (body_text_previews SimpleURL.new_URL SimpleURL.new_URL_base
              "http://x.com" greetingResponse greetingResult eq_refl)
    as (Hcap & Hpdf & _).
  split; [exact Hcap|]. split; [exact Hpdf | reflexivity].
Defined.
